(** * blasjs level-3 symmetric multiply: [csymm] and [ssymm]

    A shallow embedding of [src/lib/l3/complex/csymm.ts] (the complex
    routine [csymm] and, in the second half of the same file, the real
    routine [ssymm]) together with the properties of the two routines
    that the specification states.

    Numbers are JavaScript numbers, that is IEEE 754 binary64 values:
    they are embedded as Rocq's primitive floats, whose operations are
    the binary64 ones.  Loop counters and dimensions are integers and are
    embedded in [Z].  The matrix [c] is mutated in place by the routines;
    the embedding threads it through as explicit state and returns its
    final value together with the way the call ended.  The matrices [a],
    [b] and [c] of a call are taken to be three objects with buffers of
    their own: [a] and [b] are only read. *)

From Stdlib Require Import ZArith String Ascii Floats Lia.
From stdpp Require Import base list.

Open Scope Z_scope.

(** ** JavaScript values and control flow *)

(** [undefined] read from a typed array becomes NaN in every arithmetic
    use; all reads of the routines are arithmetic operands. *)
Definition NaN : float := (0 / 0)%float.

(** A buffer is a typed array of numbers (a Float64Array): fixed
    length, 0-based. *)
Abbreviation fpArray := (list float).

(** [buf[k]] as an arithmetic operand: out of range reads give NaN. *)
Definition rd (buf : fpArray) (k : Z) : float :=
  if k <? 0 then NaN else default NaN (buf !! Z.to_nat k).

(** [buf[k] = v]: a typed array ignores a store out of range. *)
Definition wr (buf : fpArray) (k : Z) (v : float) : fpArray :=
  if k <? 0 then buf else <[Z.to_nat k := v]> buf.

(** [cnt] iterations of a counting loop whose counter starts at [k]. *)
Fixpoint iter_up {S : Type} (cnt : nat) (k : Z) (body : Z -> S -> S) (st : S) : S :=
  match cnt with
  | O => st
  | Datatypes.S cnt' => iter_up cnt' (k + 1) body (body k st)
  end.

(** [for (let k = lo; k <= hi; k++) body] *)
Definition for_up {S : Type} (lo hi : Z) (body : Z -> S -> S) (st : S) : S :=
  iter_up (Z.to_nat (hi - lo + 1)) lo body st.

Fixpoint iter_down {S : Type} (cnt : nat) (k : Z) (body : Z -> S -> S) (st : S) : S :=
  match cnt with
  | O => st
  | Datatypes.S cnt' => iter_down cnt' (k - 1) body (body k st)
  end.

(** [for (let k = hi; k >= lo; k--) body] *)
Definition for_down {S : Type} (hi lo : Z) (body : Z -> S -> S) (st : S) : S :=
  iter_down (Z.to_nat (hi - lo + 1)) hi body st.

(** The same two loops with a body that may fail to return ([None]). *)
Fixpoint iter_upM {S : Type} (cnt : nat) (k : Z) (body : Z -> S -> option S) (st : S)
  : option S :=
  match cnt with
  | O => Some st
  | Datatypes.S cnt' =>
      match body k st with
      | Some st' => iter_upM cnt' (k + 1) body st'
      | None => None
      end
  end.

Definition for_upM {S : Type} (lo hi : Z) (body : Z -> S -> option S) (st : S) : option S :=
  iter_upM (Z.to_nat (hi - lo + 1)) lo body st.

Fixpoint iter_downM {S : Type} (cnt : nat) (k : Z) (body : Z -> S -> option S) (st : S)
  : option S :=
  match cnt with
  | O => Some st
  | Datatypes.S cnt' =>
      match body k st with
      | Some st' => iter_downM cnt' (k - 1) body st'
      | None => None
      end
  end.

Definition for_downM {S : Type} (hi lo : Z) (body : Z -> S -> option S) (st : S) : option S :=
  iter_downM (Z.to_nat (hi - lo + 1)) hi body st.

(** [for (let k = k0; k >= m; k++) body]: the counter grows while the
    test asks for it to stay above [m], so the loop has no bound of its
    own.  [fuel] counts the tests that are still allowed; [None] is a run
    that has not left the loop when the fuel is used up.  (As a
    JavaScript number the counter stops growing at 2^53, where the test
    still holds; in [Z] it grows for ever.) *)
Fixpoint loop_ge_up {S : Type} (fuel : nat) (k m : Z) (body : Z -> S -> S) (st : S)
  : option S :=
  match fuel with
  | O => None
  | Datatypes.S fuel' =>
      if k >=? m then loop_ge_up fuel' (k + 1) m body (body k st) else Some st
  end.

(** [s.includes(t)]: [t] occurs in [s] as a substring. *)
Fixpoint includes (s t : string) : bool :=
  if String.prefix t s then true
  else match s with
       | EmptyString => false
       | String _ s' => includes s' t
       end.

(** ** The collaborators imported from [f_func] *)

Definition lower_ascii (ch : ascii) : ascii :=
  let code := nat_of_ascii ch in
  if (Nat.leb 65 code && Nat.leb code 90)%bool then ascii_of_nat (code + 32) else ch.

(** Modelled from the spec: [lowerChar] is imported from [f_func], which
    is not among the sources; the spec describes it as the
    selector-normalization helper that lowercases the side and triangle
    tokens before they reach the validator. *)
Fixpoint lowerChar (s : string) : string :=
  match s with
  | EmptyString => EmptyString
  | String ch s' => String (lower_ascii ch) (lowerChar s')
  end.

(** Modelled from the spec: [errMissingIm] and [errWrongArg] are imported
    from [f_func]; the spec describes the error-construction helper as
    rendering (routineName, argumentIndex) into a diagnostic message, and
    the missing-imaginary error as its own kind.  The thrown [Error] is
    kept as the helper applied to its arguments. *)
Inductive error : Type :=
| errMissingIm (field : string)
| errWrongArg (routine : string) (info : Z).

Record Complex : Type := mkComplex { re : float; im : float }.

(** Modelled from the spec: the [Matrix] type is imported from [f_func].
    The spec gives it as a view over a dense column-major buffer [r] with
    a leading dimension, with a parallel buffer [i] of imaginary parts
    that a real matrix does not have; element (row, col), 1-indexed, is at
    buffer offset [(col-1)*leadingDimension + row]. *)
Record Matrix : Type := mkMatrix { r : fpArray; i : option fpArray; ld : Z }.

(** Modelled from the spec: the column-offset accessor, for which
    [r[colOfEx(j) + row]] is element (row, j). *)
Definition colOfEx (mat : Matrix) (col : Z) : Z := (col - 1) * ld mat.

(** Modelled from the spec: [setCol(col, rowStart, rowEnd, value)]
    overwrites rows [rowStart..rowEnd] of column [col] with [value], in
    the real buffer and in the imaginary buffer when there is one. *)
Definition setCol (mat : Matrix) (col rowStart rowEnd : Z) (value : float) : Matrix :=
  let coords := colOfEx mat col in
  let fill := for_up rowStart rowEnd (fun row buf => wr buf (coords + row) value) in
  {| r := fill (r mat); i := fill <$> i mat; ld := ld mat |}.

(** How a call ends: it returns, or it throws. *)
Inductive outcome : Type :=
| Returned
| Thrown (e : error).

Definition feq (x y : float) : bool := PrimFloat.eqb x y.

(** ** [ssymm]: the real routine *)

Module Ssymm.

Local Open Scope float_scope.

(** The state of the engine is the buffer [c.r]; [a] and [b] are only
    read.  The three matrices are taken to be distinct objects. *)
Section Engine.
Variables (m n : Z) (alpha : float) (a b : Matrix) (beta : float) (c : Matrix).
Variable ul : string.

(** side = 'l', uplo = 'u' *)
Definition left_upper (cr : fpArray) : fpArray :=
  for_up 1 n (fun j cr =>
    let coorBJ := colOfEx b j in
    let coorCJ := colOfEx c j in
    for_up 1 m (fun i cr =>
      let coorAI := colOfEx a i in
      let temp1 := alpha * rd (r b) (coorBJ + i) in
      let '(cr, temp2) :=
        for_up 1 (i - 1) (fun k '(cr, temp2) =>
          (wr cr (coorCJ + k) (rd cr (coorCJ + k) + temp1 * rd (r a) (coorAI + k)),
           temp2 + rd (r b) (coorBJ + k) * rd (r a) (coorAI + k)))
          (cr, 0) in
      let re := temp1 * rd (r a) (coorAI + i) + alpha * temp2 in
      let re := if negb (feq beta 0) then re + beta * rd cr (coorCJ + i) else re in
      wr cr (coorCJ + i) re) cr) cr.

(** side = 'l', uplo = 'l'; [coorCJ] is taken from [b] here, as the
    source has it. *)
Definition left_lower (cr : fpArray) : fpArray :=
  for_up 1 n (fun j cr =>
    let coorBJ := colOfEx b j in
    let coorCJ := colOfEx b j in
    for_down m 1 (fun i cr =>
      let coorAI := colOfEx a i in
      let temp1 := alpha * rd (r b) (coorBJ + i) in
      let '(cr, temp2) :=
        for_up (i + 1) m (fun k '(cr, temp2) =>
          (wr cr (coorCJ + k) (rd cr (coorCJ + k) + temp1 * rd (r a) (coorAI + k)),
           temp2 + rd (r b) (coorBJ + k) * rd (r a) (coorAI + k)))
          (cr, 0) in
      let re := temp1 * rd (r a) (coorAI + i) + alpha * temp2 in
      let re := if negb (feq beta 0) then re + beta * rd cr (coorCJ + i) else re in
      wr cr (coorCJ + i) re) cr) cr.

(** side = 'r': the first inner loop, which stores the diagonal term
    into column [j]. *)
Definition right_seed (j : Z) (cr : fpArray) : fpArray :=
  let coorAJ := colOfEx a j in
  let coorCJ := colOfEx c j in
  let coorBJ := colOfEx b j in
  let temp1 := alpha * rd (r a) (coorAJ + j) in
  if feq beta 0 then
    for_up 1 m (fun i cr => wr cr (coorCJ + i) (temp1 * rd (r b) (coorBJ + i))) cr
  else
    for_up 1 m (fun i cr =>
      wr cr (coorCJ + i) (beta * rd cr (coorCJ + i) + temp1 * rd (r b) (coorBJ + i))) cr.

(** [c.r[coorCJ + i] += temp1 * b.r[coorBK + i]] for i in 1..m *)
Definition right_axpy (coorCJ coorBK : Z) (temp1 : float) (cr : fpArray) : fpArray :=
  for_up 1 m (fun i cr =>
    wr cr (coorCJ + i) (rd cr (coorCJ + i) + temp1 * rd (r b) (coorBK + i))) cr.

(** side = 'r': the two loops over k that follow the first one. *)
Definition right_offdiag (j : Z) (cr : fpArray) : fpArray :=
  let coorAJ := colOfEx a j in
  let coorCJ := colOfEx c j in
  let cr :=
    for_up 1 (j - 1) (fun k cr =>
      let coorAK := colOfEx a k in
      let coorBK := colOfEx b k in
      let temp1 :=
        alpha * (if String.eqb ul "u" then rd (r a) (coorAJ + k) else rd (r a) (coorAK + j)) in
      right_axpy coorCJ coorBK temp1 cr) cr in
  for_up (j + 1) n (fun k cr =>
    let coorAK := colOfEx a k in
    let coorBK := colOfEx b k in
    let temp1 :=
      alpha * (if String.eqb ul "u" then rd (r a) (coorAK + j) else rd (r a) (coorAJ + k)) in
    right_axpy coorCJ coorBK temp1 cr) cr.

Definition right (cr : fpArray) : fpArray :=
  for_up 1 n (fun j cr => right_offdiag j (right_seed j cr)) cr.

(** The [alpha === 0] branch, [beta !== 0] half. *)
Definition scale (cr : fpArray) : fpArray :=
  for_up 1 n (fun j cr =>
    let coords := colOfEx c j in
    for_up 1 m (fun i cr => wr cr (coords + i) (rd cr (coords + i) * beta)) cr) cr.
End Engine.

Definition with_r (c : Matrix) (cr : fpArray) : Matrix :=
  {| r := cr; i := i c; ld := ld c |}.

(** The test of the input parameters: the value of [info]. *)
Definition info (si ul : string) (m n lda ldb ldc : Z) : Z :=
  let nrowA := if String.eqb si "l" then m else n in
  if (negb (String.eqb si "l") && negb (String.eqb si "r"))%bool then 1
  else if (negb (String.eqb ul "u") && negb (String.eqb ul "l"))%bool then 2
  else if (m <? 0)%Z then 3
  else if (n <? 0)%Z then 4
  else if (lda <? Z.max 1 nrowA)%Z then 7
  else if (ldb <? Z.max 1 m)%Z then 9
  else if (ldc <? Z.max 1 m)%Z then 12
  else 0%Z.

(** [ssymm(side, uplo, m, n, alpha, a, lda, b, ldb, beta, c, ldc)]: the
    final [c] and the way the call ended. *)
Definition ssymm (side uplo : string) (m n : Z) (alpha : float) (a : Matrix) (lda : Z)
    (b : Matrix) (ldb : Z) (beta : float) (c : Matrix) (ldc : Z) : Matrix * outcome :=
  let si := lowerChar side in
  let ul := lowerChar uplo in
  let info := info si ul m n lda ldb ldc in
  if negb (info =? 0)%Z then (c, Thrown (errWrongArg "ssymm" info))
  else if ((m =? 0)%Z || (n =? 0)%Z || (feq alpha 0 && feq beta 1))%bool then (c, Returned)
  else if feq alpha 0 then
    if feq beta 0 then (for_up 1 n (fun j c => setCol c j 1 m 0) c, Returned)
    else (with_r c (scale m n beta c (r c)), Returned)
  else if String.eqb si "l" then
    if String.eqb ul "u" then (with_r c (left_upper m n alpha a b beta c (r c)), Returned)
    else (with_r c (left_lower m n alpha a b beta (r c)), Returned)
  else (with_r c (right m n alpha a b beta c ul (r c)), Returned).

End Ssymm.

(** ** [csymm]: the complex routine *)

Module Csymm.

Local Open Scope float_scope.

(** The state of the engine is the pair of buffers [(c.r, c.i)]; the
    buffers of [a] and [b] are only read.  [a_i] and [b_i] are the
    imaginary buffers of [a] and [b], which the routine has found to be
    there before it gets to the engine. *)
Section Engine.
Variables (m n : Z) (alpha : Complex).
Variables (a : Matrix) (a_i : fpArray) (b : Matrix) (b_i : fpArray).
Variables (beta : Complex) (betaIsZero : bool).
Variable c : Matrix.
Variable upper : bool.

(** side = 'l', upper *)
Definition left_upper (st : fpArray * fpArray) : fpArray * fpArray :=
  for_up 1 n (fun j st =>
    let coorCJ := colOfEx c j in
    let coorBJ := colOfEx b j in
    for_up 1 m (fun i st =>
      let coorAI := colOfEx a i in
      let temp1Re := re alpha * rd (r b) (coorBJ + i) - im alpha * rd b_i (coorBJ + i) in
      let temp1Im := re alpha * rd b_i (coorBJ + i) + im alpha * rd (r b) (coorBJ + i) in
      let '(c_r, c_i, temp2Re, temp2Im) :=
        for_up 1 (i - 1) (fun k '(c_r, c_i, temp2Re, temp2Im) =>
          let c_r := wr c_r (coorCJ + k)
            (rd c_r (coorCJ + k)
             + (temp1Re * rd (r a) (coorAI + k) - temp1Im * rd a_i (coorAI + k))) in
          let c_i := wr c_i (coorCJ + k)
            (rd c_i (coorCJ + k)
             + (temp1Re * rd a_i (coorAI + k) + temp1Im * rd (r a) (coorAI + k))) in
          (c_r, c_i,
           temp2Re + (rd (r b) (coorBJ + k) * rd (r a) (coorAI + k)
                      - rd b_i (coorBJ + k) * rd a_i (coorAI + k)),
           temp2Im + (rd (r b) (coorBJ + k) * rd a_i (coorAI + k)
                      + rd b_i (coorBJ + k) * rd (r a) (coorAI + k))))
          (st.1, st.2, 0, 0) in
      let re_ := (temp1Re * rd (r a) (coorAI + i) - temp1Im * rd a_i (coorAI + i))
                 + (re alpha * temp2Re - im alpha * temp2Im) in
      let im_ := (temp1Re * rd a_i (coorAI + i) + temp1Im * rd (r a) (coorAI + i))
                 + (re alpha * temp2Im + im alpha * temp2Re) in
      let '(re_, im_) :=
        if negb betaIsZero then
          (re_ + (re beta * rd c_r (coorCJ + i) - im beta * rd c_i (coorCJ + i)),
           im_ + (re beta * rd c_i (coorCJ + i) + im beta * rd c_r (coorCJ + i)))
        else (re_, im_) in
      (wr c_r (coorCJ + i) re_, wr c_i (coorCJ + i) im_)) st) st.

(** side = 'l', not upper.  The loop over k is
    [for (let k = i + 1; k >= m; k++)], and the operands of [temp1Im],
    [temp2Im] and [im] are the ones the source writes. *)
Definition left_lower (fuel : nat) (st : fpArray * fpArray) : option (fpArray * fpArray) :=
  for_upM 1 n (fun j st =>
    let coorBJ := colOfEx b j in
    let coorCJ := colOfEx c j in
    for_downM m 1 (fun i st =>
      let coorAI := colOfEx a i in
      let temp1Re := re alpha * rd (r b) (coorBJ + i) - im alpha * rd b_i (coorBJ + i) in
      let temp1Im := re alpha * rd b_i (coorBJ + i) - im alpha * rd (r b) (coorBJ + i) in
      match
        loop_ge_up fuel (i + 1) m (fun k '(c_r, c_i, temp2Re, temp2Im) =>
          let c_r := wr c_r (coorCJ + k)
            (rd c_r (coorCJ + k)
             + (temp1Re * rd (r a) (coorAI + k) - temp1Im * rd a_i (coorAI + k))) in
          let c_i := wr c_i (coorCJ + k)
            (rd c_i (coorCJ + k)
             + (temp1Re * rd a_i (coorAI + k) + temp1Im * rd (r a) (coorAI + k))) in
          (c_r, c_i,
           temp2Re + (rd (r b) (coorBJ + k) * rd (r a) (coorAI + k)
                      - rd b_i (coorBJ + k) * rd a_i (coorAI + k)),
           temp2Im + (rd (r b) (coorBJ + k) * rd a_i (coorAI + k)
                      + rd (r b) (coorBJ + k) * rd (r a) (coorAI + k))))
          (st.1, st.2, 0, 0)
      with
      | None => None
      | Some (c_r, c_i, temp2Re, temp2Im) =>
          let re_ := (temp1Re * rd (r a) (coorAI + i) - temp1Im * rd a_i (coorAI + i))
                     + (re alpha * temp2Re - im alpha * temp2Im) in
          let im_ := (temp1Re * rd a_i (coorAI + i) + temp1Re * rd (r a) (coorAI + i))
                     + (re alpha * temp2Im + im alpha * temp2Re) in
          let '(re_, im_) :=
            if negb betaIsZero then
              (re_ + (re beta * rd c_r (coorCJ + i) - im beta * rd c_i (coorCJ + i)),
               im_ + (re beta * rd c_i (coorCJ + i) + im beta * rd c_r (coorCJ + i)))
            else (re_, im_) in
          Some (wr c_r (coorCJ + i) re_, wr c_i (coorCJ + i) im_)
      end) st) st.

(** side = 'r': the first inner loop of column [j].  [temp1] is read
    at [coorCJ + j] in the buffers of [a], as the source has it. *)
Definition right_seed (j : Z) (st : fpArray * fpArray) : fpArray * fpArray :=
  let coorBJ := colOfEx b j in
  let coorCJ := colOfEx c j in
  let temp1Re := re alpha * rd (r a) (coorCJ + j) - im alpha * rd a_i (coorCJ + j) in
  let temp1Im := re alpha * rd a_i (coorCJ + j) + im alpha * rd (r a) (coorCJ + j) in
  for_up 1 m (fun i '(c_r, c_i) =>
    let re_ := temp1Re * rd (r b) (coorBJ + i) - temp1Im * rd b_i (coorBJ + i) in
    let im_ := temp1Re * rd b_i (coorBJ + i) + temp1Im * rd (r b) (coorBJ + i) in
    let '(re_, im_) :=
      if negb betaIsZero then
        (re_ + (re beta * rd c_r (coorCJ + i) - im beta * rd c_i (coorCJ + i)),
         im_ + (re beta * rd c_i (coorCJ + i) + im beta * rd c_r (coorCJ + i)))
      else (re_, im_) in
    (wr c_r (coorCJ + i) re_, wr c_i (coorCJ + i) im_)) st.

(** [C(I,J) = C(I,J) + TEMP1*B(I,K)] for i in 1..m *)
Definition right_axpy (coorCJ coorBK : Z) (aRe aIm : float) (st : fpArray * fpArray)
  : fpArray * fpArray :=
  let temp1Re := re alpha * aRe - im alpha * aIm in
  let temp1Im := re alpha * aIm + im alpha * aRe in
  for_up 1 m (fun i '(c_r, c_i) =>
    let c_r := wr c_r (coorCJ + i)
      (rd c_r (coorCJ + i)
       + (temp1Re * rd (r b) (coorBK + i) - temp1Im * rd b_i (coorBK + i))) in
    let c_i := wr c_i (coorCJ + i)
      (rd c_i (coorCJ + i)
       + (temp1Re * rd b_i (coorBK + i) + temp1Im * rd (r b) (coorBK + i))) in
    (c_r, c_i)) st.

(** side = 'r': the two loops over k of column [j]. *)
Definition right_offdiag (j : Z) (st : fpArray * fpArray) : fpArray * fpArray :=
  let coorAJ := colOfEx a j in
  let coorCJ := colOfEx c j in
  let st :=
    for_up 1 (j - 1) (fun k st =>
      let coorAK := colOfEx a k in
      let coorBK := colOfEx b k in
      let aRe := if upper then rd (r a) (coorAJ + k) else rd (r a) (coorAK + j) in
      let aIm := if upper then rd a_i (coorAJ + k) else rd a_i (coorAK + j) in
      right_axpy coorCJ coorBK aRe aIm st) st in
  for_up (j + 1) n (fun k st =>
    let coorAK := colOfEx a k in
    let coorBK := colOfEx b k in
    let aRe := if upper then rd (r a) (coorAK + j) else rd (r a) (coorAJ + k) in
    let aIm := if upper then rd a_i (coorAK + j) else rd a_i (coorAJ + k) in
    right_axpy coorCJ coorBK aRe aIm st) st.

Definition right (st : fpArray * fpArray) : fpArray * fpArray :=
  for_up 1 n (fun j st => right_offdiag j (right_seed j st)) st.

(** The [alphaIsZero] branch, the half that multiplies by [beta]. *)
Definition scale (st : fpArray * fpArray) : fpArray * fpArray :=
  for_up 1 n (fun j st =>
    let coorCJ := colOfEx c j in
    for_up 1 m (fun i '(c_r, c_i) =>
      let re_ := re beta * rd c_r (coorCJ + i) - im beta * rd c_i (coorCJ + i) in
      let im_ := re beta * rd c_i (coorCJ + i) + im beta * rd c_r (coorCJ + i) in
      (wr c_r (coorCJ + i) re_, wr c_i (coorCJ + i) im_)) st) st.
End Engine.

Definition with_ri (c : Matrix) (st : fpArray * fpArray) : Matrix :=
  {| r := st.1; i := Some st.2; ld := ld c |}.

(** The test of the input parameters: the value of [info]. *)
Definition info (si ul : string) (m n lda ldb ldc : Z) : Z :=
  let nrowA := if String.eqb si "l" then m else n in
  if negb (includes "lr" si) then 1
  else if includes "ul" ul then 2
  else if (m <? 0)%Z then 3
  else if (n <? 0)%Z then 4
  else if (lda <? Z.max 1 nrowA)%Z then 7
  else if (ldb <? Z.max 1 m)%Z then 9
  else if (ldc <? Z.max 1 m)%Z then 12
  else 0%Z.

(** [csymm(side, uplo, m, n, alpha, a, lda, b, ldb, beta, c, ldc)]:
    [Some] of the final [c] and of the way the call ended, or [None]
    when the call is still running after [fuel] tests of the loop that
    has no bound. *)
Definition csymm (fuel : nat) (side uplo : string) (m n : Z) (alpha : Complex)
    (a : Matrix) (lda : Z) (b : Matrix) (ldb : Z) (beta : Complex) (c : Matrix) (ldc : Z)
  : option (Matrix * outcome) :=
  match i a, i b, i c with
  | None, _, _ => Some (c, Thrown (errMissingIm "a.i"))
  | Some _, None, _ => Some (c, Thrown (errMissingIm "b.i"))
  | Some _, Some _, None => Some (c, Thrown (errMissingIm "c.i"))
  | Some a_i, Some b_i, Some c_i =>
    let si := lowerChar side in
    let ul := lowerChar uplo in
    let upper := String.eqb ul "u" in
    let info := info si ul m n lda ldb ldc in
    if negb (info =? 0)%Z then Some (c, Thrown (errWrongArg "csymm" info))
    else
    let alphaIsZero := (feq (re alpha) 0 && feq (im alpha) 0)%bool in
    let betaIsOne := (feq (re beta) 1 && feq (im beta) 0)%bool in
    let betaIsZero := (feq (re beta) 0 && feq (im beta) 0)%bool in
    if ((m =? 0)%Z || (n =? 0)%Z || (alphaIsZero && betaIsOne))%bool then Some (c, Returned)
    else if alphaIsZero then
      if negb betaIsZero then Some (for_up 1 n (fun j c => setCol c j 1 m 0) c, Returned)
      else Some (with_ri c (scale m n beta c (r c, c_i)), Returned)
    else if String.eqb si "l" then
      if upper then
        Some (with_ri c (left_upper m n alpha a a_i b b_i beta betaIsZero c (r c, c_i)),
              Returned)
      else
        match left_lower m n alpha a a_i b b_i beta betaIsZero c fuel (r c, c_i) with
        | Some st => Some (with_ri c st, Returned)
        | None => None
        end
    else Some (with_ri c (right m n alpha a a_i b b_i beta betaIsZero c upper (r c, c_i)),
               Returned)
  end.

End Csymm.

(** * Predicates on buffers and the instances used below *)

Open Scope string_scope.
Open Scope Z_scope.

(** A 1 by 1 complex instance: A = (5,2), B = (1,1), C = (0,0). *)
Definition cx_a : Matrix := mkMatrix [0; 5]%float (Some [0; 2]%float) 1.
Definition cx_b : Matrix := mkMatrix [0; 1]%float (Some [0; 1]%float) 1.
Definition cx_c : Matrix := mkMatrix [0; 0]%float (Some [0; 0]%float) 1.

(** The logical symmetric matrix [[2,3],[3,4]], stored with leading
    dimension 2 in its upper triangle ([x] is the unreferenced entry
    below the diagonal) and mirrored in its lower triangle. *)
Definition sym_upper (x : float) : Matrix := mkMatrix [0; 2; x; 3; 4]%float None 2.
Definition sym_lower (x : float) : Matrix := mkMatrix [0; 2; 3; x; 4]%float None 2.

(** The 2 by 2 identity, leading dimension 2. *)
Definition identity2 : Matrix := mkMatrix [0; 1; 0; 0; 1]%float None 2.

(** A 2 by 2 view with leading dimension 3: columns at offsets 1..2 and
    4..5, and a row of padding at offsets 3 and 6. *)
Definition view3 (p0 c11 c21 p1 c12 c22 p2 : float) : Matrix :=
  mkMatrix [p0; c11; c21; p1; c12; c22; p2] None 3.

(** The 2 by 2 complex identity with leading dimension 2, a 1 by 2 row of
    ones and a 1 by 2 row C, both with leading dimension 1. *)
Definition cx_identity2 : Matrix :=
  mkMatrix [0; 1; 0; 0; 1]%float (Some [0; 0; 0; 0; 0]%float) 2.
Definition cx_ones12 : Matrix := mkMatrix [0; 1; 1]%float (Some [0; 0; 0]%float) 1.
Definition cx_row12 (p q c1_re c1_im c2_re c2_im : float) : Matrix :=
  mkMatrix [p; c1_re; c2_re] (Some [q; c1_im; c2_im]) 1.

(** 0.1 as a binary64 number. *)
Definition tenth : float := 0x1.999999999999ap-4%float.

(** The symmetric matrix [[0,3],[3,0]] stored in full with leading
    dimension 2 (so that it is its own mirrored storage), and the column
    B = (0, 3). *)
Definition sym_full : Matrix := mkMatrix [0; 0; 3; 3; 0]%float None 2.
Definition col_03 : Matrix := mkMatrix [0; 0; 3]%float None 2.

(** [k] is an index of [buf]. *)
Definition inb (buf : fpArray) (k : Z) : Prop := 0 <= k < Z.of_nat (length buf).

(** [p] is the offset of an element of columns [lo..hi], rows [1..m]. *)
Definition active (c : Matrix) (m lo hi : Z) (p : Z) : Prop :=
  exists col row, lo <= col <= hi /\ 1 <= row <= m /\ p = colOfEx c col + row.

(** What [setCol(j, 1, m, value)] does to one buffer of [c], and what the
    loop over the columns 1..hi does to it. *)
Definition fill_column (c : Matrix) (m : Z) (value : float) (j : Z) (buf : fpArray) : fpArray :=
  for_up 1 m (fun row buf => wr buf (colOfEx c j + row) value) buf.

Definition fill_columns (c : Matrix) (m : Z) (value : float) (hi : Z) (buf : fpArray)
  : fpArray :=
  for_up 1 hi (fill_column c m value) buf.

(** Two buffers of the same length that hold the same numbers at the
    offsets in [W]. *)
Definition agree_on (W : Z -> Prop) (buf1 buf2 : fpArray) : Prop :=
  length buf1 = length buf2 /\ forall p, W p -> rd buf1 p = rd buf2 p.

(** [buf'] is [buf] with the rows 1..m of the column at offset [base]
    updated, row [row] from [v] to [g row v], as far as those offsets are
    indexes of the buffer; the other offsets keep their numbers. *)
Definition column_update (base m : Z) (g : Z -> float -> float) (buf buf' : fpArray) : Prop :=
  length buf' = length buf
  /\ (forall row, 1 <= row <= m -> inb buf (base + row) ->
        rd buf' (base + row) = g row (rd buf (base + row)))
  /\ (forall p, ~ (1 <= p - base <= m) -> rd buf' p = rd buf p).

(** The number [ssymm] leaves in C(row, col) on the right side, from the
    number [v0] that is there on entry: the diagonal term (with
    [beta * v0] when [beta] is not 0), then the terms for k = 1..col-1 and
    the terms for k = col+1..n, added one by one in that order. *)
Definition right_element (n : Z) (alpha : float) (a b : Matrix) (beta : float)
    (ul : string) (row col : Z) (v0 : float) : float :=
  let temp1 := (alpha * rd (r a) (colOfEx a col + col))%float in
  let seed :=
    if feq beta 0 then (temp1 * rd (r b) (colOfEx b col + row))%float
    else (beta * v0 + temp1 * rd (r b) (colOfEx b col + row))%float in
  let before :=
    for_up 1 (col - 1) (fun k v =>
      (v + alpha * (if String.eqb ul "u" then rd (r a) (colOfEx a col + k)
                    else rd (r a) (colOfEx a k + col))
           * rd (r b) (colOfEx b k + row))%float) seed in
  for_up (col + 1) n (fun k v =>
    (v + alpha * (if String.eqb ul "u" then rd (r a) (colOfEx a k + col)
                  else rd (r a) (colOfEx a col + k))
         * rd (r b) (colOfEx b k + row))%float) before.

(** The number [ssymm] leaves in C(row, col) on the left side with the
    upper triangle: the value stored when the loop over i is at [row],
    then the terms that the later rows i = row+1..m add to it. *)
Definition left_upper_element (m : Z) (alpha : float) (a b : Matrix) (beta : float)
    (row col : Z) (v0 : float) : float :=
  let temp2 :=
    for_up 1 (row - 1) (fun k t =>
      (t + rd (r b) (colOfEx b col + k) * rd (r a) (colOfEx a row + k))%float) 0%float in
  let re := (alpha * rd (r b) (colOfEx b col + row) * rd (r a) (colOfEx a row + row)
             + alpha * temp2)%float in
  let seed := if negb (feq beta 0) then (re + beta * v0)%float else re in
  for_up (row + 1) m (fun i' v =>
    (v + alpha * rd (r b) (colOfEx b col + i') * rd (r a) (colOfEx a i' + row))%float) seed.

(** The same for the lower triangle, where the loop over i runs from m
    down to 1: the terms are added by the rows i = row-1, ..., 1. *)
Definition left_lower_element (m : Z) (alpha : float) (a b : Matrix) (beta : float)
    (row col : Z) (v0 : float) : float :=
  let temp2 :=
    for_up (row + 1) m (fun k t =>
      (t + rd (r b) (colOfEx b col + k) * rd (r a) (colOfEx a row + k))%float) 0%float in
  let re := (alpha * rd (r b) (colOfEx b col + row) * rd (r a) (colOfEx a row + row)
             + alpha * temp2)%float in
  let seed := if negb (feq beta 0) then (re + beta * v0)%float else re in
  for_down (row - 1) 1 (fun i' v =>
    (v + alpha * rd (r b) (colOfEx b col + i') * rd (r a) (colOfEx a i' + row))%float) seed.

(** The pair of buffers [st'] has the lengths of [st] and holds the
    same numbers at every offset outside [W]. *)
Definition frame2 (W : Z -> Prop) (st st' : fpArray * fpArray) : Prop :=
  length st'.1 = length st.1 /\ length st'.2 = length st.2
  /\ forall p, ~ W p -> rd st'.1 p = rd st.1 p /\ rd st'.2 p = rd st.2 p.

(** * Properties *)

(** ** Reading and writing a buffer *)

Lemma length_wr buf k v : length (wr buf k v) = length buf.
Proof. unfold wr. destruct (k <? 0); [reflexivity | apply length_insert]. Qed.

Lemma inb_wr buf k v p : inb (wr buf k v) p <-> inb buf p.
Proof. unfold inb. rewrite length_wr. reflexivity. Qed.

Lemma rd_wr_same buf k v : inb buf k -> rd (wr buf k v) k = v.
Proof.
  unfold inb, rd, wr. intros Hk. destruct (Z.ltb_spec k 0); [lia |].
  rewrite list_lookup_insert_eq by lia. reflexivity.
Qed.

Lemma rd_wr_other buf k v p : p <> k -> rd (wr buf k v) p = rd buf p.
Proof.
  unfold rd, wr. intros Hp.
  destruct (Z.ltb_spec p 0); [reflexivity |].
  destruct (Z.ltb_spec k 0); [reflexivity |].
  rewrite list_lookup_insert_ne by lia. reflexivity.
Qed.

Lemma wr_outside buf k v : ~ inb buf k -> wr buf k v = buf.
Proof.
  unfold inb, wr. intros Hk. destruct (Z.ltb_spec k 0); [reflexivity |].
  apply list_insert_ge. lia.
Qed.

Lemma rd_outside buf k : ~ inb buf k -> rd buf k = NaN.
Proof.
  unfold inb, rd. intros Hk. destruct (Z.ltb_spec k 0); [reflexivity |].
  rewrite lookup_ge_None_2 by lia. reflexivity.
Qed.

Lemma inb_dec buf k : {inb buf k} + {~ inb buf k}.
Proof.
  unfold inb. destruct (Z_le_dec 0 k); [| right; lia].
  destruct (Z_lt_dec k (Z.of_nat (length buf))); [left | right]; lia.
Qed.

(** Two buffers that hold different numbers at an offset are different. *)
Lemma buffers_differ_at (k : Z) (buf1 buf2 : fpArray) :
  feq (rd buf1 k) (rd buf2 k) = false -> feq (rd buf1 k) (rd buf1 k) = true ->
  buf1 <> buf2.
Proof. intros Hne Heq E. rewrite <- E in Hne. congruence. Qed.

(** ** The counting loops *)

Lemma iter_up_ext {S : Type} (f g : Z -> S -> S) :
  forall (cnt : nat) (k : Z) (st : S),
    (forall k' st', k <= k' < k + Z.of_nat cnt -> f k' st' = g k' st') ->
    iter_up cnt k f st = iter_up cnt k g st.
Proof.
  induction cnt as [| cnt IH]; intros k st Hfg; cbn [iter_up].
  - reflexivity.
  - rewrite (Hfg k st) by lia. apply IH. intros k' st' Hk'. apply Hfg. lia.
Qed.

(** Two loop bodies that agree on the range of the counter give the same
    loop. *)
Lemma for_up_ext {S : Type} (lo hi : Z) (f g : Z -> S -> S) (st : S) :
  (forall k st', lo <= k <= hi -> f k st' = g k st') ->
  for_up lo hi f st = for_up lo hi g st.
Proof.
  intros Hfg. unfold for_up. apply iter_up_ext.
  intros k' st' Hk'. apply Hfg. lia.
Qed.

Lemma for_up_empty {S : Type} (lo hi : Z) (f : Z -> S -> S) (st : S) :
  hi < lo -> for_up lo hi f st = st.
Proof.
  intros Hlt. unfold for_up. replace (Z.to_nat (hi - lo + 1)) with O by lia.
  reflexivity.
Qed.

Lemma iter_up_snoc {S : Type} (f : Z -> S -> S) :
  forall (cnt : nat) (k : Z) (st : S),
    iter_up (Datatypes.S cnt) k f st = f (k + Z.of_nat cnt) (iter_up cnt k f st).
Proof.
  induction cnt as [| cnt IH]; intros k st.
  - cbn [iter_up]. replace (k + Z.of_nat 0) with k by lia. reflexivity.
  - change (iter_up (Datatypes.S (Datatypes.S cnt)) k f st)
      with (iter_up (Datatypes.S cnt) (k + 1) f (f k st)).
    rewrite IH. cbn [iter_up].
    replace (k + 1 + Z.of_nat cnt) with (k + Z.of_nat (Datatypes.S cnt)) by lia.
    reflexivity.
Qed.

Lemma for_up_snoc {S : Type} (lo hi : Z) (f : Z -> S -> S) (st : S) :
  lo <= hi -> for_up lo hi f st = f hi (for_up lo (hi - 1) f st).
Proof.
  intros Hle. unfold for_up.
  replace (Z.to_nat (hi - lo + 1)) with (Datatypes.S (Z.to_nat (hi - 1 - lo + 1))) by lia.
  rewrite iter_up_snoc. f_equal. lia.
Qed.

Lemma iter_up_ind {S : Type} (P : Z -> S -> Prop) (f : Z -> S -> S) :
  forall (cnt : nat) (k : Z) (st : S),
    P k st ->
    (forall k' st', k <= k' < k + Z.of_nat cnt -> P k' st' -> P (k' + 1) (f k' st')) ->
    P (k + Z.of_nat cnt) (iter_up cnt k f st).
Proof.
  induction cnt as [| cnt IH]; intros k st H0 Hstep; cbn [iter_up].
  - replace (k + Z.of_nat 0) with k by lia. exact H0.
  - replace (k + Z.of_nat (Datatypes.S cnt)) with (k + 1 + Z.of_nat cnt) by lia.
    apply IH.
    + apply Hstep; [lia | exact H0].
    + intros k' st' Hk'. apply Hstep. lia.
Qed.

Lemma for_up_ind {S : Type} (P : Z -> S -> Prop) (lo hi : Z) (f : Z -> S -> S) (st : S) :
  lo <= hi + 1 ->
  P lo st ->
  (forall k st', lo <= k <= hi -> P k st' -> P (k + 1) (f k st')) ->
  P (hi + 1) (for_up lo hi f st).
Proof.
  intros Hle H0 Hstep. unfold for_up.
  replace (hi + 1) with (lo + Z.of_nat (Z.to_nat (hi - lo + 1))) by lia.
  apply iter_up_ind; [exact H0 |].
  intros k' st' Hk'. apply Hstep. lia.
Qed.

Lemma iter_down_ind {S : Type} (P : Z -> S -> Prop) (f : Z -> S -> S) :
  forall (cnt : nat) (k : Z) (st : S),
    P k st ->
    (forall k' st', k - Z.of_nat cnt < k' <= k -> P k' st' -> P (k' - 1) (f k' st')) ->
    P (k - Z.of_nat cnt) (iter_down cnt k f st).
Proof.
  induction cnt as [| cnt IH]; intros k st H0 Hstep; cbn [iter_down].
  - replace (k - Z.of_nat 0) with k by lia. exact H0.
  - replace (k - Z.of_nat (Datatypes.S cnt)) with (k - 1 - Z.of_nat cnt) by lia.
    apply IH.
    + apply Hstep; [lia | exact H0].
    + intros k' st' Hk'. apply Hstep. lia.
Qed.

Lemma for_down_ind {S : Type} (P : Z -> S -> Prop) (hi lo : Z) (f : Z -> S -> S) (st : S) :
  lo <= hi + 1 ->
  P hi st ->
  (forall k st', lo <= k <= hi -> P k st' -> P (k - 1) (f k st')) ->
  P (lo - 1) (for_down hi lo f st).
Proof.
  intros Hle H0 Hstep. unfold for_down.
  replace (lo - 1) with (hi - Z.of_nat (Z.to_nat (hi - lo + 1))) by lia.
  apply iter_down_ind; [exact H0 |].
  intros k' st' Hk'. apply Hstep. lia.
Qed.

(** A loop that stores, for each counter value [k], a number computed
    from the number already at offset [base + k]: every offset of the
    range that is an index of the buffer gets its number, and the other
    offsets keep theirs. *)
Lemma for_up_pointwise (base lo hi : Z) (g : Z -> float -> float) (buf : fpArray) :
  lo <= hi + 1 ->
  let buf' := for_up lo hi (fun k buf => wr buf (base + k) (g k (rd buf (base + k)))) buf in
  length buf' = length buf
  /\ (forall k, lo <= k <= hi -> inb buf (base + k) ->
        rd buf' (base + k) = g k (rd buf (base + k)))
  /\ (forall p, ~ (lo <= p - base <= hi) -> rd buf' p = rd buf p).
Proof.
  intros Hle. cbv zeta.
  destruct (for_up_ind (fun k' buf' =>
    length buf' = length buf
    /\ (forall k, lo <= k < k' -> inb buf (base + k) ->
          rd buf' (base + k) = g k (rd buf (base + k)))
    /\ (forall p, ~ (lo <= p - base < k') -> rd buf' p = rd buf p))
    lo hi (fun k buf => wr buf (base + k) (g k (rd buf (base + k)))) buf Hle)
    as (Hlen & Hin & Hout).
  - split; [reflexivity | split]; [intros; lia | reflexivity].
  - intros k st' Hk (Hlen & Hin & Hout). split; [| split].
    + rewrite length_wr. exact Hlen.
    + intros k0 Hk0 Hinb. destruct (Z.eq_dec k0 k) as [-> | Hne].
      * rewrite rd_wr_same by (unfold inb in *; lia).
        rewrite Hout by lia. reflexivity.
      * rewrite rd_wr_other by lia. apply Hin; [lia | exact Hinb].
    + intros p Hp. rewrite rd_wr_other by lia. apply Hout. lia.
  - split; [| split].
    + exact Hlen.
    + intros k Hk. apply Hin. lia.
    + intros p Hp. apply Hout. lia.
Qed.

(** Two runs of one loop in lockstep. *)
Lemma iter_up_rel {S1 S2 : Type} (R : Z -> S1 -> S2 -> Prop)
    (f : Z -> S1 -> S1) (g : Z -> S2 -> S2) :
  forall (cnt : nat) (k : Z) (s1 : S1) (s2 : S2),
    R k s1 s2 ->
    (forall k' s1' s2', k <= k' < k + Z.of_nat cnt -> R k' s1' s2' ->
       R (k' + 1) (f k' s1') (g k' s2')) ->
    R (k + Z.of_nat cnt) (iter_up cnt k f s1) (iter_up cnt k g s2).
Proof.
  induction cnt as [| cnt IH]; intros k s1 s2 H0 Hstep; cbn [iter_up].
  - replace (k + Z.of_nat 0) with k by lia. exact H0.
  - replace (k + Z.of_nat (Datatypes.S cnt)) with (k + 1 + Z.of_nat cnt) by lia.
    apply IH.
    + apply Hstep; [lia | exact H0].
    + intros k' s1' s2' Hk'. apply Hstep. lia.
Qed.

Lemma for_up_rel {S1 S2 : Type} (R : Z -> S1 -> S2 -> Prop) (lo hi : Z)
    (f : Z -> S1 -> S1) (g : Z -> S2 -> S2) (s1 : S1) (s2 : S2) :
  lo <= hi + 1 ->
  R lo s1 s2 ->
  (forall k s1' s2', lo <= k <= hi -> R k s1' s2' -> R (k + 1) (f k s1') (g k s2')) ->
  R (hi + 1) (for_up lo hi f s1) (for_up lo hi g s2).
Proof.
  intros Hle H0 Hstep. unfold for_up.
  replace (hi + 1) with (lo + Z.of_nat (Z.to_nat (hi - lo + 1))) by lia.
  apply iter_up_rel; [exact H0 |].
  intros k' s1' s2' Hk'. apply Hstep. lia.
Qed.

Lemma iter_down_rel {S1 S2 : Type} (R : Z -> S1 -> S2 -> Prop)
    (f : Z -> S1 -> S1) (g : Z -> S2 -> S2) :
  forall (cnt : nat) (k : Z) (s1 : S1) (s2 : S2),
    R k s1 s2 ->
    (forall k' s1' s2', k - Z.of_nat cnt < k' <= k -> R k' s1' s2' ->
       R (k' - 1) (f k' s1') (g k' s2')) ->
    R (k - Z.of_nat cnt) (iter_down cnt k f s1) (iter_down cnt k g s2).
Proof.
  induction cnt as [| cnt IH]; intros k s1 s2 H0 Hstep; cbn [iter_down].
  - replace (k - Z.of_nat 0) with k by lia. exact H0.
  - replace (k - Z.of_nat (Datatypes.S cnt)) with (k - 1 - Z.of_nat cnt) by lia.
    apply IH.
    + apply Hstep; [lia | exact H0].
    + intros k' s1' s2' Hk'. apply Hstep. lia.
Qed.

Lemma for_down_rel {S1 S2 : Type} (R : Z -> S1 -> S2 -> Prop) (hi lo : Z)
    (f : Z -> S1 -> S1) (g : Z -> S2 -> S2) (s1 : S1) (s2 : S2) :
  lo <= hi + 1 ->
  R hi s1 s2 ->
  (forall k s1' s2', lo <= k <= hi -> R k s1' s2' -> R (k - 1) (f k s1') (g k s2')) ->
  R (lo - 1) (for_down hi lo f s1) (for_down hi lo g s2).
Proof.
  intros Hle H0 Hstep. unfold for_down.
  replace (lo - 1) with (hi - Z.of_nat (Z.to_nat (hi - lo + 1))) by lia.
  apply iter_down_rel; [exact H0 |].
  intros k' s1' s2' Hk'. apply Hstep. lia.
Qed.

(** ** The loop without a bound *)

(** The loop [for (k = k0; k >= m; k++)] entered with [k0 >= m] is still
    running after any number of tests. *)
Lemma loop_ge_up_diverges {S : Type} (body : Z -> S -> S) (m : Z) :
  forall (fuel : nat) (k : Z) (st : S), m <= k -> loop_ge_up fuel k m body st = None.
Proof.
  induction fuel as [| fuel IH]; intros k st Hk; cbn [loop_ge_up].
  - reflexivity.
  - destruct (Z.geb_spec k m); [| lia]. apply IH. lia.
Qed.

Lemma for_upM_first {S : Type} (lo hi : Z) (body : Z -> S -> option S) (st : S) :
  lo <= hi -> body lo st = None -> for_upM lo hi body st = None.
Proof.
  intros Hle Hb. unfold for_upM.
  destruct (Z.to_nat (hi - lo + 1)) eqn:E; [lia |].
  cbn [iter_upM]. rewrite Hb. reflexivity.
Qed.

Lemma for_downM_first {S : Type} (hi lo : Z) (body : Z -> S -> option S) (st : S) :
  lo <= hi -> body hi st = None -> for_downM hi lo body st = None.
Proof.
  intros Hle Hb. unfold for_downM.
  destruct (Z.to_nat (hi - lo + 1)) eqn:E; [lia |].
  cbn [iter_downM]. rewrite Hb. reflexivity.
Qed.

(** The left side, lower triangle branch of [csymm] does not get past
    its first row: for [i = m] the loop over k starts at [m + 1 >= m]. *)
Lemma csymm_left_lower_diverges m n alpha a a_i b b_i beta betaIsZero c fuel st :
  1 <= m -> 1 <= n ->
  Csymm.left_lower m n alpha a a_i b b_i beta betaIsZero c fuel st = None.
Proof.
  intros Hm Hn. unfold Csymm.left_lower.
  apply for_upM_first; [lia |].
  apply for_downM_first; [lia |].
  rewrite loop_ge_up_diverges by lia. reflexivity.
Qed.

(** ** Numbers *)

(** A number equal to 0 (that is +0 or -0) is not equal to 1. *)
Lemma feq_0_not_1 (x : float) : feq x 0 = true -> feq x 1 = false.
Proof.
  unfold feq. rewrite !FloatAxioms.eqb_spec.
  change (Prim2SF 0) with (S754_zero false).
  set (one := Prim2SF 1). vm_compute in one. subst one.
  destruct (Prim2SF x) as [s | s | | s mant e]; unfold SFeqb, SFcompare;
    try destruct s; try discriminate; reflexivity.
Qed.

(** ** The active region of C *)

(** With a leading dimension of at least [m], the elements of the
    active region have offsets of their own. *)
Lemma offsets_injective (c : Matrix) (m col row col' row' : Z) :
  m <= ld c -> 1 <= row <= m -> 1 <= row' <= m ->
  colOfEx c col + row = colOfEx c col' + row' -> col = col' /\ row = row'.
Proof.
  unfold colOfEx. intros Hld Hr Hr' E.
  destruct (Z.lt_trichotomy col col') as [Hlt | [-> | Hgt]].
  - assert (1 * ld c <= (col' - col) * ld c) by (apply Z.mul_le_mono_nonneg_r; lia).
    lia.
  - lia.
  - assert (1 * ld c <= (col - col') * ld c) by (apply Z.mul_le_mono_nonneg_r; lia).
    lia.
Qed.

Lemma active_column (c : Matrix) (m j p : Z) :
  active c m j j p <-> 1 <= p - colOfEx c j <= m.
Proof.
  unfold active. split.
  - intros (col & row & Hc & Hr & ->). replace col with j by lia. lia.
  - intros Hp. exists j, (p - colOfEx c j). lia.
Qed.

Lemma active_snoc (c : Matrix) (m lo j p : Z) :
  lo <= j ->
  active c m lo j p <-> active c m lo (j - 1) p \/ active c m j j p.
Proof.
  unfold active. intros Hj. split.
  - intros (col & row & Hc & Hr & ->). destruct (Z.eq_dec col j) as [-> | Hne].
    + right. exists j, row. lia.
    + left. exists col, row. lia.
  - intros [(col & row & Hc & Hr & ->) | (col & row & Hc & Hr & ->)];
      exists col, row; lia.
Qed.

Lemma active_disjoint (c : Matrix) (m k p : Z) :
  m <= ld c -> active c m 1 (k - 1) p -> active c m k k p -> False.
Proof.
  intros Hld (col & row & Hc & Hr & ->) (col' & row' & Hc' & Hr' & E).
  destruct (offsets_injective c m col row col' row' Hld Hr Hr' E). lia.
Qed.

(** ** The tests of the input parameters *)

Section Validators.
Variables (si ul : string) (m n lda ldb ldc : Z).

Lemma csymm_info_side :
  includes "lr" si = false -> Csymm.info si ul m n lda ldb ldc = 1.
Proof. unfold Csymm.info. intros ->. reflexivity. Qed.

Lemma csymm_info_uplo :
  includes "lr" si = true -> includes "ul" ul = true ->
  Csymm.info si ul m n lda ldb ldc = 2.
Proof. unfold Csymm.info. intros -> ->. reflexivity. Qed.

(** Past the first two tests [info] is 0 or the index of a dimension. *)
Lemma csymm_info_dims :
  includes "lr" si = true -> includes "ul" ul = false ->
  Csymm.info si ul m n lda ldb ldc <> 2.
Proof.
  unfold Csymm.info. intros -> ->. cbn [negb].
  repeat match goal with |- context [if ?t then _ else _] => destruct t end; lia.
Qed.

Lemma csymm_info_0 :
  includes "lr" si = true -> includes "ul" ul = false ->
  0 <= m -> 0 <= n ->
  Z.max 1 (if String.eqb si "l" then m else n) <= lda ->
  Z.max 1 m <= ldb -> Z.max 1 m <= ldc ->
  Csymm.info si ul m n lda ldb ldc = 0.
Proof.
  unfold Csymm.info. intros -> -> Hm Hn Ha Hb Hc. cbn [negb].
  repeat match goal with
         | |- context [Z.ltb ?x ?y] => destruct (Z.ltb_spec x y); [lia |]
         end.
  reflexivity.
Qed.

Lemma ssymm_info_0 :
  si = "l" \/ si = "r" -> ul = "u" \/ ul = "l" ->
  0 <= m -> 0 <= n ->
  Z.max 1 (if String.eqb si "l" then m else n) <= lda ->
  Z.max 1 m <= ldb -> Z.max 1 m <= ldc ->
  Ssymm.info si ul m n lda ldb ldc = 0.
Proof.
  unfold Ssymm.info. intros Hs Hu Hm Hn Ha Hb Hc.
  replace (negb (String.eqb si "l") && negb (String.eqb si "r"))%bool with false
    by (destruct Hs as [-> | ->]; reflexivity).
  replace (negb (String.eqb ul "u") && negb (String.eqb ul "l"))%bool with false
    by (destruct Hu as [-> | ->]; reflexivity).
  repeat match goal with
         | |- context [Z.ltb ?x ?y] => destruct (Z.ltb_spec x y); [lia |]
         end.
  reflexivity.
Qed.

(** With a valid side, [ssymm]'s [info] is 2 exactly for a triangle
    selector that is neither 'u' nor 'l'. *)
Lemma ssymm_info_2_iff :
  si = "l" \/ si = "r" ->
  Ssymm.info si ul m n lda ldb ldc = 2 <-> (ul <> "u" /\ ul <> "l").
Proof.
  unfold Ssymm.info. intros Hs.
  replace (negb (String.eqb si "l") && negb (String.eqb si "r"))%bool with false
    by (destruct Hs as [-> | ->]; reflexivity).
  destruct (String.eqb_spec ul "u") as [-> | Hu]; cbn [negb andb].
  - split; [| tauto].
    repeat match goal with |- context [if ?t then _ else _] => destruct t end; lia.
  - destruct (String.eqb_spec ul "l") as [-> | Hl]; cbn [negb].
    + split; [| tauto].
      repeat match goal with |- context [if ?t then _ else _] => destruct t end; lia.
    + tauto.
Qed.
End Validators.

Lemma ssymm_info_0_inv si ul m n lda ldb ldc :
  Ssymm.info si ul m n lda ldb ldc = 0 ->
  (si = "l" \/ si = "r") /\ (ul = "u" \/ ul = "l") /\ 0 <= m /\ 0 <= n.
Proof.
  unfold Ssymm.info.
  destruct (String.eqb_spec si "l"), (String.eqb_spec si "r"),
    (String.eqb_spec ul "u"), (String.eqb_spec ul "l"); cbn [negb andb];
    try discriminate;
    destruct (Z.ltb_spec m 0); try discriminate;
    destruct (Z.ltb_spec n 0); try discriminate; intros _; auto.
Qed.

(** A call of [csymm] on three complex matrices whose side selector is
    accepted and whose triangle selector occurs in 'ul' throws with
    [info = 2] and leaves [c] as it was. *)
Lemma csymm_uplo_in_ul_throws fuel side uplo m n alpha a lda b ldb beta c ldc :
  is_Some (i a) -> is_Some (i b) -> is_Some (i c) ->
  includes "lr" (lowerChar side) = true ->
  includes "ul" (lowerChar uplo) = true ->
  Csymm.csymm fuel side uplo m n alpha a lda b ldb beta c ldc
  = Some (c, Thrown (errWrongArg "csymm" 2)).
Proof.
  intros [a_i Ha] [b_i Hb] [c_i Hc] Hs Hu. unfold Csymm.csymm.
  rewrite Ha, Hb, Hc, (csymm_info_uplo _ _ _ _ _ _ _ Hs Hu). reflexivity.
Qed.

(** C10: in [csymm] the three tests for a missing imaginary buffer come
    before everything else.  Whatever the selectors, dimensions and
    scalars are: when [a] has no imaginary buffer the call throws the
    missing-imaginary error for 'a.i'; when [a] has one and [b] has none,
    for 'b.i'; when [a] and [b] have one and [c] has none, for 'c.i'.  The
    matrix [c] the call ends with is the one it started with. *)
Theorem csymm_missing_imaginary_first
    fuel side uplo m n alpha a lda b ldb beta c ldc :
  let call := Csymm.csymm fuel side uplo m n alpha a lda b ldb beta c ldc in
  (i a = None -> call = Some (c, Thrown (errMissingIm "a.i")))
  /\ (is_Some (i a) -> i b = None -> call = Some (c, Thrown (errMissingIm "b.i")))
  /\ (is_Some (i a) -> is_Some (i b) -> i c = None ->
      call = Some (c, Thrown (errMissingIm "c.i"))).
Proof.
  cbv zeta. unfold Csymm.csymm. repeat split.
  - intros ->. reflexivity.
  - intros [a_i ->] ->. reflexivity.
  - intros [a_i ->] [b_i ->] ->. reflexivity.
Qed.

(** C2 (as the code has it): in [csymm] the second test is the wrong way
    round.  For three complex matrices and a valid side selector, a call
    whose triangle selector is 'u' or 'l' throws with [info = 2], and a
    call whose triangle selector does not occur in 'ul' never throws with
    [info = 2]. *)
Theorem csymm_triangle_test_inverted
    fuel side uplo m n alpha a a_i lda b b_i ldb beta c c_i ldc :
  i a = Some a_i -> i b = Some b_i -> i c = Some c_i ->
  lowerChar side = "l" \/ lowerChar side = "r" ->
  let call := Csymm.csymm fuel side uplo m n alpha a lda b ldb beta c ldc in
  (lowerChar uplo = "u" \/ lowerChar uplo = "l" ->
   call = Some (c, Thrown (errWrongArg "csymm" 2)))
  /\ (includes "ul" (lowerChar uplo) = false ->
      forall c', call <> Some (c', Thrown (errWrongArg "csymm" 2))).
Proof.
  intros Ha Hb Hc Hs call. subst call.
  assert (Hlr : includes "lr" (lowerChar side) = true)
    by (destruct Hs as [-> | ->]; reflexivity).
  split.
  - intros Hu. apply csymm_uplo_in_ul_throws; eauto.
    destruct Hu as [-> | ->]; reflexivity.
  - intros Hu c'. unfold Csymm.csymm. rewrite Ha, Hb, Hc.
    pose proof (csymm_info_dims _ _ m n lda ldb ldc Hlr Hu) as Hinfo.
    repeat match goal with
           | |- context [if ?t then _ else _] => destruct t
           | |- context [match ?t with Some _ => _ | None => _ end] => destruct t
           end; congruence.
Qed.

Lemma csymm_triangle_test_inverted_witness :
  Csymm.csymm 8 "l" "u" 1 1 (mkComplex 1 0) cx_a 1 cx_b 1 (mkComplex 0 0) cx_c 1
  = Some (cx_c, Thrown (errWrongArg "csymm" 2))
  /\ forall c',
      Csymm.csymm 8 "r" "x" 1 1 (mkComplex 1 0) cx_a 1 cx_b 1 (mkComplex 0 0) cx_c 1
      <> Some (c', Thrown (errWrongArg "csymm" 2)).
Proof.
  split.
  - apply (csymm_triangle_test_inverted 8 "l" "u" 1 1 (mkComplex 1 0)
             cx_a [0; 2]%float 1 cx_b [0; 1]%float 1 (mkComplex 0 0)
             cx_c [0; 0]%float 1); try reflexivity.
    + left. reflexivity.
    + left. reflexivity.
  - apply (csymm_triangle_test_inverted 8 "r" "x" 1 1 (mkComplex 1 0)
             cx_a [0; 2]%float 1 cx_b [0; 1]%float 1 (mkComplex 0 0)
             cx_c [0; 0]%float 1); try reflexivity.
    right. reflexivity.
Defined.

(** The real routine has the second test the right way round: with a
    valid side selector, [ssymm] throws with [info = 2] exactly when the
    triangle selector is neither 'u' nor 'l'. *)
Lemma ssymm_throws_2_iff side uplo m n alpha a lda b ldb beta c ldc :
  lowerChar side = "l" \/ lowerChar side = "r" ->
  (Ssymm.ssymm side uplo m n alpha a lda b ldb beta c ldc).2
  = Thrown (errWrongArg "ssymm" 2)
  <-> (lowerChar uplo <> "u" /\ lowerChar uplo <> "l").
Proof.
  intros Hs. rewrite <- (ssymm_info_2_iff _ _ m n lda ldb ldc Hs).
  unfold Ssymm.ssymm.
  destruct (Z.eqb_spec (Ssymm.info (lowerChar side) (lowerChar uplo) m n lda ldb ldc) 0)
    as [E | E]; cbn [negb].
  - rewrite E. split; [| lia].
    repeat match goal with |- context [if ?t then _ else _] => destruct t end;
      cbn; congruence.
  - cbn. split; congruence.
Qed.

(** ** Termination *)

(** The branches of [ssymm] are built from counting loops only, so a
    call of [ssymm] ends, and a call that passes the tests returns. *)
Lemma ssymm_valid_returns side uplo m n alpha a lda b ldb beta c ldc :
  Ssymm.info (lowerChar side) (lowerChar uplo) m n lda ldb ldc = 0 ->
  (Ssymm.ssymm side uplo m n alpha a lda b ldb beta c ldc).2 = Returned.
Proof.
  intros E. unfold Ssymm.ssymm. rewrite E. cbn [Z.eqb negb].
  repeat match goal with |- context [if ?t then _ else _] => destruct t end;
    reflexivity.
Qed.

(** C1 (as the code has it): a call of [csymm] on the left side with
    [m >= 1], [n >= 1] and a nonzero [alpha] does not return.  With the
    triangle selector 'l' it throws with [info = 2]; with a triangle
    selector that the tests let through, and leading dimensions that
    they let through, it enters the lower-triangle branch and is still
    running after any number [fuel] of tests of that branch's loop over
    k. *)
Theorem csymm_left_lower_does_not_return
    fuel side uplo m n alpha a a_i lda b b_i ldb beta c c_i ldc :
  i a = Some a_i -> i b = Some b_i -> i c = Some c_i ->
  lowerChar side = "l" ->
  1 <= m -> 1 <= n ->
  (feq (re alpha) 0 && feq (im alpha) 0)%bool = false ->
  let call := Csymm.csymm fuel side uplo m n alpha a lda b ldb beta c ldc in
  (lowerChar uplo = "l" -> call = Some (c, Thrown (errWrongArg "csymm" 2)))
  /\ (includes "ul" (lowerChar uplo) = false ->
      m <= lda -> m <= ldb -> m <= ldc -> call = None).
Proof.
  intros Ha Hb Hc Hs Hm Hn Halpha call. subst call. split.
  - intros Hu. apply csymm_uplo_in_ul_throws; eauto.
    + rewrite Hs. reflexivity.
    + rewrite Hu. reflexivity.
  - intros Hu Hlda Hldb Hldc. unfold Csymm.csymm. rewrite Ha, Hb, Hc.
    rewrite csymm_info_0; try lia; try assumption;
      [| rewrite Hs; reflexivity | rewrite Hs; cbn; lia].
    cbn [Z.eqb negb]. rewrite Halpha.
    destruct (Z.eqb_spec m 0); [lia |]. destruct (Z.eqb_spec n 0); [lia |].
    cbn [andb orb]. rewrite Hs. cbn [String.eqb Ascii.eqb Bool.eqb].
    destruct (String.eqb_spec (lowerChar uplo) "u") as [E | _].
    + rewrite E in Hu. discriminate Hu.
    + rewrite csymm_left_lower_diverges by lia. reflexivity.
Qed.

Lemma csymm_left_lower_does_not_return_witness :
  Csymm.csymm 1000 "L" "l" 1 1 (mkComplex 1 0) cx_a 1 cx_b 1 (mkComplex 0 0) cx_c 1
  = Some (cx_c, Thrown (errWrongArg "csymm" 2))
  /\ Csymm.csymm 1000 "L" "x" 1 1 (mkComplex 1 0) cx_a 1 cx_b 1 (mkComplex 0 0) cx_c 1
     = None.
Proof.
  split.
  - apply (csymm_left_lower_does_not_return 1000 "L" "l" 1 1 (mkComplex 1 0)
             cx_a [0; 2]%float 1 cx_b [0; 1]%float 1 (mkComplex 0 0)
             cx_c [0; 0]%float 1); try reflexivity; lia.
  - apply (csymm_left_lower_does_not_return 1000 "L" "x" 1 1 (mkComplex 1 0)
             cx_a [0; 2]%float 1 cx_b [0; 1]%float 1 (mkComplex 0 0)
             cx_c [0; 0]%float 1); try reflexivity; lia.
Defined.

(** ** The quick return *)

(** [ssymm] with [alpha = 0] and [beta = 1] returns at once: the call
    returns, and [c] is the matrix it was given. *)
Lemma ssymm_alpha0_beta1_noop side uplo m n alpha a lda b ldb beta c ldc :
  Ssymm.info (lowerChar side) (lowerChar uplo) m n lda ldb ldc = 0 ->
  feq alpha 0 = true -> feq beta 1 = true ->
  Ssymm.ssymm side uplo m n alpha a lda b ldb beta c ldc = (c, Returned).
Proof.
  intros E Halpha Hbeta. unfold Ssymm.ssymm.
  rewrite E, Halpha, Hbeta. cbn [Z.eqb negb andb].
  rewrite !orb_true_r. reflexivity.
Qed.

(** C8 (as the code has it): a call of [csymm] with valid selectors,
    [alpha = 0] and [beta = 1] does not return: it throws with
    [info = 2].  The matrix [c] is left as it was. *)
Theorem csymm_alpha0_beta1_throws
    fuel side uplo m n alpha a a_i lda b b_i ldb beta c c_i ldc :
  i a = Some a_i -> i b = Some b_i -> i c = Some c_i ->
  lowerChar side = "l" \/ lowerChar side = "r" ->
  lowerChar uplo = "u" \/ lowerChar uplo = "l" ->
  (feq (re alpha) 0 && feq (im alpha) 0)%bool = true ->
  (feq (re beta) 1 && feq (im beta) 0)%bool = true ->
  Csymm.csymm fuel side uplo m n alpha a lda b ldb beta c ldc
  = Some (c, Thrown (errWrongArg "csymm" 2)).
Proof.
  intros Ha Hb Hc Hs Hu _ _. apply csymm_uplo_in_ul_throws; eauto.
  - destruct Hs as [-> | ->]; reflexivity.
  - destruct Hu as [-> | ->]; reflexivity.
Qed.

Lemma csymm_alpha0_beta1_throws_witness :
  Csymm.csymm 0 "r" "U" 1 1 (mkComplex 0 0) cx_a 1 cx_b 1 (mkComplex 1 0) cx_c 1
  = Some (cx_c, Thrown (errWrongArg "csymm" 2)).
Proof.
  apply (csymm_alpha0_beta1_throws 0 "r" "U" 1 1 (mkComplex 0 0)
           cx_a [0; 2]%float 1 cx_b [0; 1]%float 1 (mkComplex 1 0)
           cx_c [0; 0]%float 1); try reflexivity.
  - right. reflexivity.
  - left. reflexivity.
Defined.

(** ** The branch for [alpha = 0] *)

Lemma setCol_loop (c : Matrix) (m n : Z) (value : float) :
  0 <= n ->
  for_up 1 n (fun j c => setCol c j 1 m value) c
  = {| r := fill_columns c m value n (r c);
       i := fill_columns c m value n <$> i c;
       ld := ld c |}.
Proof.
  intros Hn.
  pose proof (for_up_ind (fun k c_k =>
           c_k = {| r := fill_columns c m value (k - 1) (r c);
                    i := fill_columns c m value (k - 1) <$> i c;
                    ld := ld c |}) 1 n (fun j c => setCol c j 1 m value) c) as H.
  cbv beta in H. replace (n + 1 - 1) with n in H by lia.
  apply H; clear H; [lia | |].
  - unfold fill_columns. rewrite for_up_empty by lia.
    destruct c as [c_r [c_i |] c_ld]; cbn; rewrite ?for_up_empty by lia; reflexivity.
  - intros k st' Hk ->. unfold setCol, colOfEx. cbn [r i ld].
    unfold fill_columns.
    rewrite (for_up_snoc 1 (k + 1 - 1)) by lia.
    replace (k + 1 - 1 - 1) with (k - 1) by lia. replace (k + 1 - 1) with k by lia.
    f_equal. destruct (i c) as [c_i |]; cbn [fmap option_fmap option_map]; [| reflexivity].
    f_equal. rewrite (for_up_snoc 1 k) by lia. reflexivity.
Qed.

(** Filling the columns 1..n stores [value] at every offset of the
    active region that is an index of the buffer, and nowhere else. *)
Lemma fill_columns_spec (c : Matrix) (m n : Z) (value : float) (buf : fpArray) :
  0 <= m -> 0 <= n ->
  let buf' := fill_columns c m value n buf in
  length buf' = length buf
  /\ (forall p, active c m 1 n p -> inb buf p -> rd buf' p = value)
  /\ (forall p, ~ active c m 1 n p -> rd buf' p = rd buf p).
Proof.
  intros Hm Hn. cbv zeta. unfold fill_columns.
  destruct (for_up_ind (fun k buf' =>
    length buf' = length buf
    /\ (forall p, active c m 1 (k - 1) p -> inb buf p -> rd buf' p = value)
    /\ (forall p, ~ active c m 1 (k - 1) p -> rd buf' p = rd buf p))
    1 n (fill_column c m value) buf) as (Hlen & Hin & Hout); [lia | | |].
  - split; [reflexivity | split]; [| reflexivity].
    intros p (col & row & Hc & _). lia.
  - intros k buf' Hk (Hlen & Hin & Hout).
    destruct (for_up_pointwise (colOfEx c k) 1 m (fun _ _ => value) buf')
      as (Hlen' & Hin' & Hout'); [lia |].
    fold (fill_column c m value k buf') in Hlen', Hin', Hout'.
    replace (k + 1 - 1) with k by lia.
    split; [congruence | split].
    + intros p Hp Hinb.
      destruct (Z_le_dec 1 (p - colOfEx c k)) as [H1 |];
        [destruct (Z_le_dec (p - colOfEx c k) m) as [H2 |] |].
      * replace p with (colOfEx c k + (p - colOfEx c k)) by lia.
        apply Hin'; [lia |]. unfold inb in *. rewrite Hlen.
        replace (colOfEx c k + (p - colOfEx c k)) with p by lia. exact Hinb.
      * rewrite Hout' by lia. apply Hin; [| exact Hinb].
        apply active_snoc in Hp; [| lia]. destruct Hp as [Hp | Hp]; [exact Hp |].
        apply active_column in Hp. lia.
      * rewrite Hout' by lia. apply Hin; [| exact Hinb].
        apply active_snoc in Hp; [| lia]. destruct Hp as [Hp | Hp]; [exact Hp |].
        apply active_column in Hp. lia.
    + intros p Hp. rewrite Hout'.
      * apply Hout. intros Hact. apply Hp. apply active_snoc; [lia | left; exact Hact].
      * intros Hcol. apply Hp. apply active_snoc; [lia | right].
        apply active_column. exact Hcol.
  - replace (n + 1 - 1) with n in Hin, Hout by lia. auto.
Qed.

(** With a leading dimension of at least [m], the [beta !== 0] half of
    the [alpha === 0] branch multiplies every element of the active
    region by [beta], once, and leaves the other offsets alone. *)
Lemma ssymm_scale_spec (c : Matrix) (m n : Z) (beta : float) (buf : fpArray) :
  0 <= m -> 0 <= n -> m <= ld c ->
  let buf' := Ssymm.scale m n beta c buf in
  length buf' = length buf
  /\ (forall p, active c m 1 n p -> inb buf p -> rd buf' p = (rd buf p * beta)%float)
  /\ (forall p, ~ active c m 1 n p -> rd buf' p = rd buf p).
Proof.
  intros Hm Hn Hld. cbv zeta. unfold Ssymm.scale.
  destruct (for_up_ind (fun k buf' =>
    length buf' = length buf
    /\ (forall p, active c m 1 (k - 1) p -> inb buf p ->
          rd buf' p = (rd buf p * beta)%float)
    /\ (forall p, ~ active c m 1 (k - 1) p -> rd buf' p = rd buf p))
    1 n (fun j cr =>
           for_up 1 m (fun i cr =>
             wr cr (colOfEx c j + i) (rd cr (colOfEx c j + i) * beta)%float) cr) buf)
    as (Hlen & Hin & Hout); [lia | | |].
  - split; [reflexivity | split]; [| reflexivity].
    intros p (col & row & Hc & _). lia.
  - intros k buf' Hk (Hlen & Hin & Hout).
    destruct (for_up_pointwise (colOfEx c k) 1 m (fun _ old => (old * beta)%float) buf')
      as (Hlen' & Hin' & Hout'); [lia |].
    cbv beta. replace (k + 1 - 1) with k by lia.
    split; [congruence | split].
    + intros p Hp Hinb. apply active_snoc in Hp; [| lia].
      destruct Hp as [Hp | Hp].
      * rewrite Hout'; [apply Hin; assumption |].
        intros Hcol. apply (active_disjoint c m k p Hld Hp).
        apply active_column. exact Hcol.
      * pose proof Hp as Hcol. apply active_column in Hcol.
        replace p with (colOfEx c k + (p - colOfEx c k)) at 1 by lia.
        rewrite Hin'; [| lia |].
        -- replace (colOfEx c k + (p - colOfEx c k)) with p by lia.
           rewrite Hout; [reflexivity |].
           intros Hact. exact (active_disjoint c m k p Hld Hact Hp).
        -- unfold inb in *. rewrite Hlen.
           replace (colOfEx c k + (p - colOfEx c k)) with p by lia. exact Hinb.
    + intros p Hp. rewrite Hout'.
      * apply Hout. intros Hact. apply Hp. apply active_snoc; [lia | left; exact Hact].
      * intros Hcol. apply Hp. apply active_snoc; [lia | right].
        apply active_column. exact Hcol.
  - replace (n + 1 - 1) with n in Hin, Hout by lia. auto.
Qed.

(** [ssymm] with [alpha = 0] and [beta = 0]: the call returns, and every
    element of the active m by n region of C is 0 afterwards, whatever C
    held; the rest of the buffer is as it was.  (An imaginary buffer of
    [c], if there is one, is filled in the same way by [setCol].) *)
Lemma ssymm_alpha0_beta0_zero_fill side uplo m n alpha a lda b ldb beta c ldc :
  Ssymm.info (lowerChar side) (lowerChar uplo) m n lda ldb ldc = 0 ->
  1 <= m -> 1 <= n -> feq alpha 0 = true -> feq beta 0 = true ->
  exists c',
    Ssymm.ssymm side uplo m n alpha a lda b ldb beta c ldc = (c', Returned)
    /\ ld c' = ld c /\ length (r c') = length (r c)
    /\ (forall row col, 1 <= row <= m -> 1 <= col <= n ->
          inb (r c) (colOfEx c col + row) -> rd (r c') (colOfEx c col + row) = 0%float)
    /\ (forall p, ~ active c m 1 n p -> rd (r c') p = rd (r c) p).
Proof.
  intros E Hm Hn Halpha Hbeta. unfold Ssymm.ssymm.
  rewrite E, Halpha, Hbeta, (feq_0_not_1 beta Hbeta).
  destruct (Z.eqb_spec m 0); [lia |]. destruct (Z.eqb_spec n 0); [lia |].
  cbn [Z.eqb negb andb orb]. rewrite setCol_loop by lia.
  destruct (fill_columns_spec c m n 0%float (r c)) as (Hlen & Hin & Hout); [lia | lia |].
  eexists. split; [reflexivity |]. cbn [r ld].
  split; [reflexivity | split]; [exact Hlen | split]; [| exact Hout].
  intros row col Hr Hc Hinb. apply Hin; [| exact Hinb]. exists col, row. lia.
Qed.

(** [ssymm] with [alpha = 0] and [beta] neither 0 nor 1, on a matrix C
    whose leading dimension is at least [m]: the call returns, and every
    element of the active region is its prior value times [beta]; the
    rest of the buffer is as it was. *)
Lemma ssymm_alpha0_scales side uplo m n alpha a lda b ldb beta c ldc :
  Ssymm.info (lowerChar side) (lowerChar uplo) m n lda ldb ldc = 0 ->
  1 <= m -> 1 <= n -> m <= ld c ->
  feq alpha 0 = true -> feq beta 0 = false -> feq beta 1 = false ->
  exists c',
    Ssymm.ssymm side uplo m n alpha a lda b ldb beta c ldc = (c', Returned)
    /\ ld c' = ld c /\ length (r c') = length (r c)
    /\ (forall row col, 1 <= row <= m -> 1 <= col <= n ->
          inb (r c) (colOfEx c col + row) ->
          rd (r c') (colOfEx c col + row) = (rd (r c) (colOfEx c col + row) * beta)%float)
    /\ (forall p, ~ active c m 1 n p -> rd (r c') p = rd (r c) p).
Proof.
  intros E Hm Hn Hld Halpha Hbeta0 Hbeta1. unfold Ssymm.ssymm.
  rewrite E, Halpha, Hbeta0, Hbeta1.
  destruct (Z.eqb_spec m 0); [lia |]. destruct (Z.eqb_spec n 0); [lia |].
  cbn [Z.eqb negb andb orb].
  destruct (ssymm_scale_spec c m n beta (r c)) as (Hlen & Hin & Hout); [lia | lia | lia |].
  eexists. split; [reflexivity |]. cbn [r ld Ssymm.with_r].
  split; [reflexivity | split]; [exact Hlen | split]; [| exact Hout].
  intros row col Hr Hc Hinb. apply Hin; [| exact Hinb]. exists col, row. lia.
Qed.

(** C3 (as the code has it): the [alpha = 0] branch of [csymm].  A valid
    call with [alpha = 0] and [beta = 0] throws with [info = 2] and
    leaves C = (c_re, c_im) as it was, instead of storing zero.  When the
    branch is reached (with a triangle selector the tests let through),
    its two halves are the wrong way round: with beta = (2,0) the element
    is set to (0,0) instead of being multiplied by beta, and with
    beta = (0,0) the element is computed from its prior value as
    (0*c_re - 0*c_im, 0*c_im + 0*c_re). *)
Theorem csymm_alpha_zero_branch_inverted (fuel : nat) (p q c_re c_im : float) :
  let c := mkMatrix [p; c_re] (Some [q; c_im]) 1 in
  Csymm.csymm fuel "l" "u" 1 1 (mkComplex 0 0) cx_a 1 cx_b 1 (mkComplex 0 0) c 1
  = Some (c, Thrown (errWrongArg "csymm" 2))
  /\ Csymm.csymm fuel "l" "x" 1 1 (mkComplex 0 0) cx_a 1 cx_b 1 (mkComplex 2 0) c 1
     = Some (mkMatrix [p; 0%float] (Some [q; 0%float]) 1, Returned)
  /\ Csymm.csymm fuel "l" "x" 1 1 (mkComplex 0 0) cx_a 1 cx_b 1 (mkComplex 0 0) c 1
     = Some (mkMatrix [p; (0 * c_re - 0 * c_im)%float]
                      (Some [q; (0 * c_im + 0 * c_re)%float]) 1, Returned).
Proof. cbv zeta. repeat split; vm_compute; reflexivity. Qed.

(** In the last case a NaN in C on entry is still there on return. *)
Lemma csymm_alpha0_beta0_keeps_nan (fuel : nat) :
  Csymm.csymm fuel "l" "x" 1 1 (mkComplex 0 0) cx_a 1 cx_b 1 (mkComplex 0 0)
    (mkMatrix [NaN; NaN] (Some [NaN; NaN]) 1) 1
  = Some (mkMatrix [NaN; NaN] (Some [NaN; NaN]) 1, Returned).
Proof. vm_compute. reflexivity. Qed.

(** ** The two scenarios of the specification *)

(** C4 (as the code has it): [csymm] on the 1 by 1 scenario (side left,
    triangle upper, alpha = (1,0), beta = (0,0), A = (5,2), B = (1,1))
    does not return and does not store (3,7): it throws with [info = 2]
    and [c], whatever it held, is left as it was. *)
Theorem csymm_scenario_1x1_throws (fuel : nat) (p q c_re c_im : float) :
  let c := mkMatrix [p; c_re] (Some [q; c_im]) 1 in
  Csymm.csymm fuel "l" "u" 1 1 (mkComplex 1 0) cx_a 1 cx_b 1 (mkComplex 0 0) c 1
  = Some (c, Thrown (errWrongArg "csymm" 2)).
Proof. reflexivity. Qed.

(** The branch that the scenario is meant to reach does compute (3,7). *)
Lemma csymm_left_upper_1x1 (p q c_re c_im : float) :
  Csymm.left_upper 1 1 (mkComplex 1 0) cx_a [0; 2]%float cx_b [0; 1]%float
    (mkComplex 0 0) true (mkMatrix [p; c_re] (Some [q; c_im]) 1) ([p; c_re], [q; c_im])
  = ([p; 3]%float, [q; 7]%float).
Proof. reflexivity. Qed.

(** C5: [ssymm] on the 2 by 2 scenario.  Side left, triangle upper,
    alpha = 1, beta = 0; A holds 2, 3, 4 in its upper triangle and
    anything ([x]) below the diagonal; B is the identity; all leading
    dimensions are 2.  Whatever [c] holds on entry, the call returns and
    C is [[2,3],[3,4]] (column-major: 2, 3, 3, 4). *)
Theorem ssymm_scenario_2x2 (x pa pb pc c11 c21 c12 c22 : float) :
  Ssymm.ssymm "l" "u" 2 2 1
    (mkMatrix [pa; 2; x; 3; 4]%float None 2) 2
    (mkMatrix [pb; 1; 0; 0; 1]%float None 2) 2
    0 (mkMatrix [pc; c11; c21; c12; c22] None 2) 2
  = (mkMatrix [pc; 2; 3; 3; 4]%float None 2, Returned).
Proof. vm_compute. reflexivity. Qed.

(** ** The right side: the diagonal term *)

(** The first inner loop of column [j] reads the diagonal element of [a]
    at row [j] of [a]'s own column [j], and stores into every element of
    rows 1..m of column [j] of C the product [temp1 * B(row,j)], to which
    [beta * C(row,j)] is added when [beta] is not 0.  The other offsets of
    the buffer keep their numbers. *)
Lemma ssymm_right_seed_spec m alpha a b beta c j cr :
  0 <= m ->
  let temp1 := (alpha * rd (r a) (colOfEx a j + j))%float in
  let cr' := Ssymm.right_seed m alpha a b beta c j cr in
  length cr' = length cr
  /\ (forall row, 1 <= row <= m -> inb cr (colOfEx c j + row) ->
        rd cr' (colOfEx c j + row)
        = if feq beta 0 then (temp1 * rd (r b) (colOfEx b j + row))%float
          else (beta * rd cr (colOfEx c j + row)
                + temp1 * rd (r b) (colOfEx b j + row))%float)
  /\ (forall p, ~ active c m j j p -> rd cr' p = rd cr p).
Proof.
  intros Hm. cbv zeta. unfold Ssymm.right_seed.
  setoid_rewrite active_column.
  destruct (feq beta 0).
  - apply (for_up_pointwise (colOfEx c j) 1 m
             (fun row _ => (alpha * rd (r a) (colOfEx a j + j)
                            * rd (r b) (colOfEx b j + row))%float)). lia.
  - apply (for_up_pointwise (colOfEx c j) 1 m
             (fun row old => (beta * old
                              + alpha * rd (r a) (colOfEx a j + j)
                                * rd (r b) (colOfEx b j + row))%float)). lia.
Qed.

(** On the right side a call of [ssymm] that gets to the engine runs,
    for each column [j] from 1 to n, the first loop and then the two
    loops over k. *)
Lemma ssymm_right_engine side uplo m n alpha a lda b ldb beta c ldc :
  Ssymm.info (lowerChar side) (lowerChar uplo) m n lda ldb ldc = 0 ->
  lowerChar side = "r" -> 1 <= m -> 1 <= n -> feq alpha 0 = false ->
  Ssymm.ssymm side uplo m n alpha a lda b ldb beta c ldc
  = (Ssymm.with_r c
       (for_up 1 n (fun j cr =>
          Ssymm.right_offdiag m n alpha a b c (lowerChar uplo) j
            (Ssymm.right_seed m alpha a b beta c j cr)) (r c)),
     Returned).
Proof.
  intros E Hs Hm Hn Halpha. unfold Ssymm.ssymm. rewrite E, Hs, Halpha.
  destruct (Z.eqb_spec m 0); [lia |]. destruct (Z.eqb_spec n 0); [lia |].
  reflexivity.
Qed.

(** C9 (as the code has it): [csymm] on the right side with m = 1,
    n = 2, alpha = (1,0), beta = (0,0), A the identity (leading
    dimension 2), B = ((1,0), (1,0)) and C with leading dimension 1.  A
    valid call throws with [info = 2] and stores nothing.  When the
    engine is reached (with a triangle selector the tests let through),
    the diagonal term of column 2 is read from A at C's column offset
    plus 2, which is A(1,2) = 0 and not A(2,2) = 1: the first loop of
    that column stores (0,0), and the call ends with C = ((1,0), (0,0))
    where B*A is ((1,0), (1,0)).  [ssymm] on the same real data gives
    (1, 1). *)
Theorem csymm_right_diagonal_read_at_c_offset
    (fuel : nat) (p q c1_re c1_im c2_re c2_im : float) :
  let c := cx_row12 p q c1_re c1_im c2_re c2_im in
  Csymm.csymm fuel "r" "l" 1 2 (mkComplex 1 0) cx_identity2 2 cx_ones12 1
    (mkComplex 0 0) c 1
  = Some (c, Thrown (errWrongArg "csymm" 2))
  /\ Csymm.right_seed 1 (mkComplex 1 0) cx_identity2 [0; 0; 0; 0; 0]%float
       cx_ones12 [0; 0; 0]%float (mkComplex 0 0) true c 2
       ([p; c1_re; c2_re], [q; c1_im; c2_im])
     = ([p; c1_re; 0%float], [q; c1_im; 0%float])
  /\ Csymm.csymm fuel "r" "x" 1 2 (mkComplex 1 0) cx_identity2 2 cx_ones12 1
       (mkComplex 0 0) c 1
     = Some (cx_row12 p q 1 0 0 0, Returned)
  /\ Ssymm.ssymm "r" "l" 1 2 1 cx_identity2 2 cx_ones12 1 0 c 1
     = (cx_row12 p q 1 c1_im 1 c2_im, Returned).
Proof. cbv zeta. repeat split; vm_compute; reflexivity. Qed.

(** ** Which triangle is stored *)

Section RightOblivious.
Variables (m n : Z) (alpha : float) (a_up a_lo b : Matrix) (beta : float) (c : Matrix).

(** [a_lo] holds in its lower triangle what [a_up] holds in its upper
    triangle: entry (j,k) of [a_lo] is entry (k,j) of [a_up] for
    k <= j, the diagonal included. *)
Hypothesis mirrored :
  forall j k, 1 <= k <= j -> j <= n ->
    rd (r a_lo) (colOfEx a_lo k + j) = rd (r a_up) (colOfEx a_up j + k).

Lemma ssymm_right_seed_mirrored j cr :
  1 <= j <= n ->
  Ssymm.right_seed m alpha a_up b beta c j cr
  = Ssymm.right_seed m alpha a_lo b beta c j cr.
Proof.
  intros Hj. unfold Ssymm.right_seed. rewrite (mirrored j j) by lia. reflexivity.
Qed.

Lemma ssymm_right_offdiag_mirrored j cr :
  1 <= j <= n ->
  Ssymm.right_offdiag m n alpha a_up b c "u" j cr
  = Ssymm.right_offdiag m n alpha a_lo b c "l" j cr.
Proof.
  intros Hj. unfold Ssymm.right_offdiag. cbn [String.eqb Ascii.eqb Bool.eqb].
  cbv zeta.
  rewrite (for_up_ext 1 (j - 1) _
             (fun k cr => Ssymm.right_axpy m b (colOfEx c j) (colOfEx b k)
                            (alpha * rd (r a_lo) (colOfEx a_lo k + j)) cr)).
  2: { intros k st' Hk. rewrite (mirrored j k) by lia. reflexivity. }
  apply for_up_ext. intros k st' Hk. rewrite (mirrored k j) by lia. reflexivity.
Qed.

Lemma ssymm_right_mirrored cr :
  Ssymm.right m n alpha a_up b beta c "u" cr
  = Ssymm.right m n alpha a_lo b beta c "l" cr.
Proof.
  unfold Ssymm.right. apply for_up_ext. intros j st' Hj.
  rewrite ssymm_right_seed_mirrored, ssymm_right_offdiag_mirrored by lia.
  reflexivity.
Qed.
End RightOblivious.

(** C6, amended: for [ssymm] on the right side, a call with triangle
    upper on a storage [a_up] and a call with triangle lower on the
    mirrored storage [a_lo] end the same way with the same final C, for
    all m, n, alpha, beta, B, C and leading dimensions. *)
Theorem ssymm_right_triangle_oblivious
    side uplo_u uplo_l m n alpha a_up a_lo lda b ldb beta c ldc :
  lowerChar side = "r" -> lowerChar uplo_u = "u" -> lowerChar uplo_l = "l" ->
  (forall j k, 1 <= k <= j -> j <= n ->
     rd (r a_lo) (colOfEx a_lo k + j) = rd (r a_up) (colOfEx a_up j + k)) ->
  Ssymm.ssymm side uplo_u m n alpha a_up lda b ldb beta c ldc
  = Ssymm.ssymm side uplo_l m n alpha a_lo lda b ldb beta c ldc.
Proof.
  intros Hs Hu Hl Hmir. unfold Ssymm.ssymm. rewrite Hs, Hu, Hl.
  replace (Ssymm.info "r" "l" m n lda ldb ldc) with (Ssymm.info "r" "u" m n lda ldb ldc)
    by reflexivity.
  cbn [String.eqb Ascii.eqb Bool.eqb].
  rewrite (ssymm_right_mirrored m n alpha a_up a_lo b beta c Hmir). reflexivity.
Qed.

Lemma ssymm_right_triangle_oblivious_witness :
  Ssymm.ssymm "R" "U" 2 2 1 (sym_upper 9) 2 identity2 2 1 (view3 0 1 2 0 3 4 0) 3
  = Ssymm.ssymm "R" "L" 2 2 1 (sym_lower 7) 2 identity2 2 1 (view3 0 1 2 0 3 4 0) 3.
Proof.
  apply (ssymm_right_triangle_oblivious "R" "U" "L" 2 2 1 (sym_upper 9) (sym_lower 7) 2
           identity2 2 1 (view3 0 1 2 0 3 4 0) 3); try reflexivity.
  intros j k Hk Hj.
  assert (Hjk : (j = 1 /\ k = 1) \/ (j = 2 /\ k = 1) \/ (j = 2 /\ k = 2)) by lia.
  destruct Hjk as [[-> ->] | [[-> ->] | [-> ->]]]; reflexivity.
Defined.

(** C6, counterexample: [ssymm] on the left side, m = 2, n = 1,
    alpha = 0.1, beta = 0, all leading dimensions 2.  The upper branch
    computes C(1,1) as (0.1*3)*3 and the lower branch as 0.1*(3*3), which
    are different binary64 numbers. *)
Lemma ssymm_left_triangles_round_differently :
  let c := mkMatrix [0; 0; 0]%float None 2 in
  let up := Ssymm.ssymm "l" "u" 2 1 tenth sym_full 2 col_03 2 0 c 2 in
  let lo := Ssymm.ssymm "l" "l" 2 1 tenth sym_full 2 col_03 2 0 c 2 in
  rd (r up.1) (colOfEx up.1 1 + 1) = 0x1.ccccccccccccep-1%float
  /\ rd (r lo.1) (colOfEx lo.1 1 + 1) = 0x1.ccccccccccccdp-1%float
  /\ up <> lo.
Proof.
  cbv zeta. repeat split.
  intros E. apply (f_equal (fun res => r res.1)) in E.
  revert E. apply (buffers_differ_at 1); reflexivity.
Qed.

(** The lower branch on the left side takes C's column offsets from
    [b].  [ssymm] on the left side with alpha = 1, beta = 0, B the
    identity (leading dimension 2) and C a view with leading dimension 3.
    With triangle upper C becomes [[2,3],[3,4]].
    With triangle lower and the mirrored storage the second column is
    stored at the offsets of B's second column: the padding and C(1,2)
    are overwritten, C(1,2) is 4 and C(2,2) keeps its prior value.  The
    two final matrices differ. *)
Theorem ssymm_left_lower_writes_b_offsets (x y p0 c11 c21 p1 c12 c22 p2 : float) :
  let c := view3 p0 c11 c21 p1 c12 c22 p2 in
  let up := Ssymm.ssymm "l" "u" 2 2 1 (sym_upper x) 2 identity2 2 0 c 3 in
  let lo := Ssymm.ssymm "l" "l" 2 2 1 (sym_lower y) 2 identity2 2 0 c 3 in
  up = (view3 p0 2 3 p1 3 4 p2, Returned)
  /\ lo = (view3 p0 2 3 3 4 c22 p2, Returned)
  /\ up.1 <> lo.1.
Proof.
  cbv zeta.
  assert (Hup : Ssymm.ssymm "l" "u" 2 2 1 (sym_upper x) 2 identity2 2 0
                  (view3 p0 c11 c21 p1 c12 c22 p2) 3
                = (view3 p0 2 3 p1 3 4 p2, Returned)) by (vm_compute; reflexivity).
  assert (Hlo : Ssymm.ssymm "l" "l" 2 2 1 (sym_lower y) 2 identity2 2 0
                  (view3 p0 c11 c21 p1 c12 c22 p2) 3
                = (view3 p0 2 3 3 4 c22 p2, Returned)) by (vm_compute; reflexivity).
  rewrite Hup, Hlo. repeat split.
  cbn [fst]. intros E. apply (f_equal r) in E.
  revert E. apply (buffers_differ_at 4); reflexivity.
Qed.

(** ** Two runs that differ in C on entry *)

Lemma agree_on_weaken (W W' : Z -> Prop) buf1 buf2 :
  (forall p, W' p -> W p) -> agree_on W buf1 buf2 -> agree_on W' buf1 buf2.
Proof. intros Hsub [Hlen Hrd]. split; [exact Hlen | auto]. Qed.

(** Storing one number at one offset in both buffers adds the offset to
    those on which they agree. *)
Lemma agree_on_wr (W : Z -> Prop) buf1 buf2 p v :
  agree_on W buf1 buf2 ->
  agree_on (fun q => W q \/ q = p) (wr buf1 p v) (wr buf2 p v).
Proof.
  intros [Hlen Hrd]. split; [rewrite !length_wr; exact Hlen |].
  intros q [Hq | ->].
  - destruct (Z.eq_dec q p) as [-> | Hne].
    + destruct (inb_dec buf1 p) as [Hin | Hout].
      * rewrite !rd_wr_same; [reflexivity | | exact Hin].
        unfold inb in *. rewrite <- Hlen. exact Hin.
      * rewrite !wr_outside; [auto | | exact Hout].
        unfold inb in *. rewrite <- Hlen. exact Hout.
    + rewrite !rd_wr_other by exact Hne. auto.
  - destruct (inb_dec buf1 p) as [Hin | Hout].
    + rewrite !rd_wr_same; [reflexivity | | exact Hin].
      unfold inb in *. rewrite <- Hlen. exact Hin.
    + rewrite !wr_outside, !rd_outside; [reflexivity | | exact Hout | | exact Hout];
        unfold inb in *; rewrite <- Hlen; exact Hout.
Qed.

(** Storing at an offset on which the buffers agree a number computed
    from the number that is there keeps the agreement. *)
Lemma agree_on_update (W : Z -> Prop) buf1 buf2 p (g : float -> float) :
  W p -> agree_on W buf1 buf2 ->
  agree_on W (wr buf1 p (g (rd buf1 p))) (wr buf2 p (g (rd buf2 p))).
Proof.
  intros Hp Hag. rewrite (proj2 Hag p Hp).
  apply (agree_on_weaken (fun q => W q \/ q = p)); [auto | apply agree_on_wr; exact Hag].
Qed.

(** The branches of [ssymm] with [beta = 0]: whatever two buffers of the
    same length a branch starts from, it ends with two buffers that agree
    on the active region. *)
Section BetaZero.
Variables (m n : Z) (alpha : float) (a b : Matrix) (beta : float) (c : Matrix).
Variable ul : string.
Hypothesis beta_zero : feq beta 0 = true.
Hypothesis m_nonneg : 0 <= m.

Lemma ssymm_right_axpy_agree (W : Z -> Prop) coorCJ coorBK temp1 buf1 buf2 :
  (forall row, 1 <= row <= m -> W (coorCJ + row)) ->
  agree_on W buf1 buf2 ->
  agree_on W (Ssymm.right_axpy m b coorCJ coorBK temp1 buf1)
             (Ssymm.right_axpy m b coorCJ coorBK temp1 buf2).
Proof.
  intros HW Hag. unfold Ssymm.right_axpy.
  apply (for_up_rel (fun _ => agree_on W) 1 m); [lia | exact Hag |].
  intros k s1 s2 Hk Hs.
  apply (agree_on_update W s1 s2 (coorCJ + k)
           (fun old => (old + temp1 * rd (r b) (coorBK + k))%float)); auto.
Qed.

Lemma ssymm_right_seed_agree (W : Z -> Prop) j buf1 buf2 :
  agree_on W buf1 buf2 ->
  agree_on (fun p => W p \/ active c m j j p)
           (Ssymm.right_seed m alpha a b beta c j buf1)
           (Ssymm.right_seed m alpha a b beta c j buf2).
Proof.
  intros Hag. unfold Ssymm.right_seed. rewrite beta_zero.
  apply (agree_on_weaken
           (fun p => W p \/ exists row, 1 <= row < m + 1 /\ p = colOfEx c j + row)).
  { intros p [Hp | Hp]; [left; exact Hp | right].
    apply active_column in Hp. exists (p - colOfEx c j). lia. }
  apply (for_up_rel
           (fun k => agree_on
              (fun p => W p \/ exists row, 1 <= row < k /\ p = colOfEx c j + row)) 1 m);
    [lia | |].
  - apply (agree_on_weaken W); [| exact Hag].
    intros p [Hp | (row & Hrow & _)]; [exact Hp | lia].
  - intros k s1 s2 Hk Hs.
    eapply agree_on_weaken; [| apply agree_on_wr; exact Hs].
    cbv beta. intros p [Hp | (row & Hrow & ->)]; [left; left; exact Hp |].
    destruct (Z.eq_dec row k) as [-> | Hne]; [right; reflexivity |].
    left. right. exists row. lia.
Qed.

Lemma ssymm_right_offdiag_agree (W : Z -> Prop) j buf1 buf2 :
  1 <= j <= n ->
  (forall p, active c m j j p -> W p) ->
  agree_on W buf1 buf2 ->
  agree_on W (Ssymm.right_offdiag m n alpha a b c ul j buf1)
             (Ssymm.right_offdiag m n alpha a b c ul j buf2).
Proof.
  intros Hj HW Hag. unfold Ssymm.right_offdiag. cbv zeta.
  assert (Hrows : forall row, 1 <= row <= m -> W (colOfEx c j + row)).
  { intros row Hrow. apply HW, active_column. lia. }
  apply (for_up_rel (fun _ => agree_on W) (j + 1) n); [lia | |].
  - apply (for_up_rel (fun _ => agree_on W) 1 (j - 1)); [lia | exact Hag |].
    intros k s1 s2 Hk Hs. apply ssymm_right_axpy_agree; assumption.
  - intros k s1 s2 Hk Hs. apply ssymm_right_axpy_agree; assumption.
Qed.

Lemma ssymm_right_agree buf1 buf2 :
  0 <= n -> length buf1 = length buf2 ->
  agree_on (active c m 1 n)
           (Ssymm.right m n alpha a b beta c ul buf1)
           (Ssymm.right m n alpha a b beta c ul buf2).
Proof.
  intros Hn Hlen. unfold Ssymm.right.
  apply (agree_on_weaken (active c m 1 (n + 1 - 1)));
    [replace (n + 1 - 1) with n by lia; auto |].
  apply (for_up_rel (fun k => agree_on (active c m 1 (k - 1))) 1 n); [lia | |].
  - split; [exact Hlen |]. intros p (col & row & Hc & _). lia.
  - intros j s1 s2 Hj Hs. replace (j + 1 - 1) with j by lia.
    apply ssymm_right_offdiag_agree; [lia | |].
    + intros p Hp. apply active_snoc; [lia | right; exact Hp].
    + eapply agree_on_weaken; [| apply ssymm_right_seed_agree; exact Hs].
      cbv beta. intros p Hp. apply active_snoc in Hp; [exact Hp | lia].
Qed.

Lemma ssymm_left_upper_agree buf1 buf2 :
  0 <= n -> length buf1 = length buf2 ->
  agree_on (active c m 1 n)
           (Ssymm.left_upper m n alpha a b beta c buf1)
           (Ssymm.left_upper m n alpha a b beta c buf2).
Proof.
  intros Hn Hlen. unfold Ssymm.left_upper.
  apply (agree_on_weaken (active c m 1 (n + 1 - 1)));
    [replace (n + 1 - 1) with n by lia; auto |].
  apply (for_up_rel (fun k => agree_on (active c m 1 (k - 1))) 1 n); [lia | |].
  - split; [exact Hlen |]. intros p (col & row & Hc & _). lia.
  - intros j s1 s2 Hj Hs. cbv zeta. replace (j + 1 - 1) with j by lia.
    apply (agree_on_weaken
             (fun p => active c m 1 (j - 1) p
                       \/ exists row, 1 <= row < m + 1 /\ p = colOfEx c j + row)).
    { intros p Hp. apply active_snoc in Hp; [| lia].
      destruct Hp as [Hp | Hp]; [left; exact Hp | right].
      apply active_column in Hp. exists (p - colOfEx c j). lia. }
    apply (for_up_rel
             (fun i' => agree_on
                (fun p => active c m 1 (j - 1) p
                          \/ exists row, 1 <= row < i' /\ p = colOfEx c j + row)) 1 m);
      [lia | |].
    + apply (agree_on_weaken (active c m 1 (j - 1))); [| exact Hs].
      intros p [Hp | (row & Hrow & _)]; [exact Hp | lia].
    + intros row_i t1 t2 Hi Ht. rewrite beta_zero. cbn [negb].
      set (Wi := fun p => active c m 1 (j - 1) p
                          \/ exists row, 1 <= row < row_i /\ p = colOfEx c j + row) in *.
      lazymatch goal with
      | |- context [for_up 1 (row_i - 1) ?body (t1, _)] => set (F := body)
      end.
      pose proof (for_up_rel
                    (fun _ (x y : fpArray * float) => agree_on Wi x.1 y.1 /\ x.2 = y.2)
                    1 (row_i - 1) F F (t1, 0%float) (t2, 0%float)) as Hk.
      destruct (for_up 1 (row_i - 1) F (t1, 0%float)) as [cr1 temp2_1].
      destruct (for_up 1 (row_i - 1) F (t2, 0%float)) as [cr2 temp2_2].
      destruct Hk as [Hag Heq]; [lia | split; [exact Ht | reflexivity] | |].
      * intros k [x1 x2] [y1 y2] Hk [Hx Hxy]. cbn [fst snd] in Hx, Hxy. subst y2.
        unfold F. cbn [fst snd]. split; [| reflexivity].
        apply (agree_on_update Wi x1 y1 (colOfEx c j + k)
                 (fun old => (old + alpha * rd (r b) (colOfEx b j + row_i)
                                    * rd (r a) (colOfEx a row_i + k))%float));
          [| exact Hx].
        right. exists k. lia.
      * cbn [fst snd] in Hag, Heq. subst temp2_2.
        eapply agree_on_weaken; [| apply agree_on_wr; exact Hag].
        cbv beta. intros p [Hp | (row & Hrow & ->)]; [left; left; exact Hp |].
        destruct (Z.eq_dec row row_i) as [-> | Hne]; [right; reflexivity |].
        left. right. exists row. lia.
Qed.

(** The lower branch stores at the column offsets of [b]: the two runs
    agree on the offsets that the active region would have in [b]. *)
Lemma ssymm_left_lower_agree buf1 buf2 :
  0 <= n -> length buf1 = length buf2 ->
  agree_on (active b m 1 n)
           (Ssymm.left_lower m n alpha a b beta buf1)
           (Ssymm.left_lower m n alpha a b beta buf2).
Proof.
  intros Hn Hlen. unfold Ssymm.left_lower.
  apply (agree_on_weaken (active b m 1 (n + 1 - 1)));
    [replace (n + 1 - 1) with n by lia; auto |].
  apply (for_up_rel (fun k => agree_on (active b m 1 (k - 1))) 1 n); [lia | |].
  - split; [exact Hlen |]. intros p (col & row & Hc & _). lia.
  - intros j s1 s2 Hj Hs. cbv zeta. replace (j + 1 - 1) with j by lia.
    apply (agree_on_weaken
             (fun p => active b m 1 (j - 1) p
                       \/ exists row, 1 - 1 < row <= m /\ p = colOfEx b j + row)).
    { intros p Hp. apply active_snoc in Hp; [| lia].
      destruct Hp as [Hp | Hp]; [left; exact Hp | right].
      apply active_column in Hp. exists (p - colOfEx b j). lia. }
    apply (for_down_rel
             (fun i' => agree_on
                (fun p => active b m 1 (j - 1) p
                          \/ exists row, i' < row <= m /\ p = colOfEx b j + row)) m 1);
      [lia | |].
    + apply (agree_on_weaken (active b m 1 (j - 1))); [| exact Hs].
      intros p [Hp | (row & Hrow & _)]; [exact Hp | lia].
    + intros row_i t1 t2 Hi Ht. rewrite beta_zero. cbn [negb].
      set (Wi := fun p => active b m 1 (j - 1) p
                          \/ exists row, row_i < row <= m /\ p = colOfEx b j + row) in *.
      lazymatch goal with
      | |- context [for_up (row_i + 1) m ?body (t1, _)] => set (F := body)
      end.
      pose proof (for_up_rel
                    (fun _ (x y : fpArray * float) => agree_on Wi x.1 y.1 /\ x.2 = y.2)
                    (row_i + 1) m F F (t1, 0%float) (t2, 0%float)) as Hk.
      destruct (for_up (row_i + 1) m F (t1, 0%float)) as [cr1 temp2_1].
      destruct (for_up (row_i + 1) m F (t2, 0%float)) as [cr2 temp2_2].
      destruct Hk as [Hag Heq]; [lia | split; [exact Ht | reflexivity] | |].
      * intros k [x1 x2] [y1 y2] Hk [Hx Hxy]. cbn [fst snd] in Hx, Hxy. subst y2.
        unfold F. cbn [fst snd]. split; [| reflexivity].
        apply (agree_on_update Wi x1 y1 (colOfEx b j + k)
                 (fun old => (old + alpha * rd (r b) (colOfEx b j + row_i)
                                    * rd (r a) (colOfEx a row_i + k))%float));
          [| exact Hx].
        right. exists k. lia.
      * cbn [fst snd] in Hag, Heq. subst temp2_2.
        eapply agree_on_weaken; [| apply agree_on_wr; exact Hag].
        cbv beta. intros p [Hp | (row & Hrow & ->)]; [left; left; exact Hp |].
        destruct (Z.eq_dec row row_i) as [-> | Hne]; [right; reflexivity |].
        left. right. exists row. lia.
Qed.
End BetaZero.

(** Apart from that branch on matrices [b] and [c] of different leading
    dimensions, [ssymm] with [beta = 0] forgets C: a valid call with
    [beta = 0], run on two matrices C of the same shape, returns both
    times, and the two final matrices hold the same numbers in the active
    m by n region.  On the left side with the lower triangle this needs
    [b] and [c] to have the same leading dimension, since that branch
    takes C's column offsets from [b]. *)
Lemma ssymm_beta0_forgets_c side uplo m n alpha a lda b ldb beta c1 c2 ldc :
  Ssymm.info (lowerChar side) (lowerChar uplo) m n lda ldb ldc = 0 ->
  feq beta 0 = true ->
  ld c1 = ld c2 -> length (r c1) = length (r c2) ->
  (lowerChar side = "l" -> lowerChar uplo = "l" -> ld b = ld c1) ->
  let res1 := Ssymm.ssymm side uplo m n alpha a lda b ldb beta c1 ldc in
  let res2 := Ssymm.ssymm side uplo m n alpha a lda b ldb beta c2 ldc in
  res1.2 = Returned /\ res2.2 = Returned
  /\ forall row col, 1 <= row <= m -> 1 <= col <= n ->
       rd (r res1.1) (colOfEx c1 col + row) = rd (r res2.1) (colOfEx c1 col + row).
Proof.
  intros E Hbeta Hld Hlen Hlower. cbv zeta.
  rewrite !ssymm_valid_returns by exact E.
  split; [reflexivity | split]; [reflexivity |].
  destruct (ssymm_info_0_inv _ _ _ _ _ _ _ E) as (Hs & Hu & Hm & Hn).
  intros row col Hrow Hcol.
  assert (Hact : active c1 m 1 n (colOfEx c1 col + row)) by (exists col, row; lia).
  unfold Ssymm.ssymm. rewrite E, Hbeta, (feq_0_not_1 beta Hbeta).
  destruct (Z.eqb_spec m 0); [lia |]. destruct (Z.eqb_spec n 0); [lia |].
  rewrite andb_false_r. cbn [Z.eqb negb orb fst].
  destruct (feq alpha 0).
  - rewrite !setCol_loop by lia. cbn [fst r].
    replace (fill_columns c2 m 0 n (r c2)) with (fill_columns c1 m 0 n (r c2))
      by (unfold fill_columns, fill_column, colOfEx; rewrite Hld; reflexivity).
    destruct (fill_columns_spec c1 m n 0%float (r c1)) as (Hlen1 & Hin1 & _); [lia | lia |].
    destruct (fill_columns_spec c1 m n 0%float (r c2)) as (Hlen2 & Hin2 & _); [lia | lia |].
    destruct (inb_dec (r c1) (colOfEx c1 col + row)) as [Hin | Hout].
    + rewrite Hin1, Hin2; auto. unfold inb in *. rewrite <- Hlen. exact Hin.
    + rewrite !rd_outside; [reflexivity | |]; unfold inb in *; lia.
  - destruct Hs as [Hs | Hs]; rewrite Hs; cbn [String.eqb Ascii.eqb Bool.eqb].
    + destruct Hu as [Hu | Hu]; rewrite Hu; cbn [String.eqb Ascii.eqb Bool.eqb fst];
        cbn [Ssymm.with_r r].
      * replace (Ssymm.left_upper m n alpha a b beta c2 (r c2))
          with (Ssymm.left_upper m n alpha a b beta c1 (r c2))
          by (unfold Ssymm.left_upper, colOfEx; rewrite Hld; reflexivity).
        apply (ssymm_left_upper_agree m n alpha a b beta c1 Hbeta Hm); auto.
      * destruct (ssymm_left_lower_agree m n alpha a b beta Hbeta Hm (r c1) (r c2))
          as [_ Hag]; [lia | exact Hlen |].
        apply Hag. exists col, row. unfold colOfEx. rewrite (Hlower Hs Hu). lia.
    + cbn [Ssymm.with_r r].
      replace (Ssymm.right m n alpha a b beta c2 (lowerChar uplo) (r c2))
        with (Ssymm.right m n alpha a b beta c1 (lowerChar uplo) (r c2))
        by (unfold Ssymm.right, Ssymm.right_seed, Ssymm.right_offdiag, colOfEx;
            rewrite Hld; reflexivity).
      apply (ssymm_right_agree m n alpha a b beta c1 (lowerChar uplo) Hbeta Hm); auto.
Qed.


(** C7 (as the code has it): [ssymm] on the left side with the lower
    triangle of [[2,3],[3,4]], alpha = 1, beta = 0, B the identity
    (leading dimension 2) and C a view with leading dimension 3, run on
    two matrices C that differ only in C(2,2) on entry, 0 and 1.  The
    branch stores column 2 at the offsets of B's column 2, so C(2,2) is
    still 0 in one final matrix and 1 in the other. *)
Theorem ssymm_left_lower_beta0_keeps_prior_c (y p0 c11 c21 p1 c12 p2 : float) :
  let run c22 :=
    (Ssymm.ssymm "l" "l" 2 2 1 (sym_lower y) 2 identity2 2 0
       (view3 p0 c11 c21 p1 c12 c22 p2) 3).1 in
  rd (r (run 0%float)) (colOfEx (run 0%float) 2 + 2) = 0%float
  /\ rd (r (run 1%float)) (colOfEx (run 1%float) 2 + 2) = 1%float
  /\ run 0%float <> run 1%float.
Proof.
  cbv zeta. repeat split.
  intros E. apply (f_equal r) in E.
  revert E. apply (buffers_differ_at 5); reflexivity.
Qed.

(** * Further properties of the two routines *)

(** ** How a call can end *)

(** The tests of [ssymm], in their order, each with the error it throws;
    a call that throws ends with the [c] it was given.  A side selector
    other than 'l' and 'r' gives 1 whatever the other arguments are; then
    the triangle selector gives 2, [m < 0] gives 3, [n < 0] gives 4, and
    a leading dimension below [max(1, rows)] gives 7 for [a] (rows is [m]
    on the left side and [n] on the right), 9 for [b] and 12 for [c].  A
    call that passes all of them returns. *)
Theorem ssymm_error_codes side uplo m n alpha a lda b ldb beta c ldc :
  let si := lowerChar side in
  let ul := lowerChar uplo in
  let nrowA := if String.eqb si "l" then m else n in
  let res := Ssymm.ssymm side uplo m n alpha a lda b ldb beta c ldc in
  let throws k := res = (c, Thrown (errWrongArg "ssymm" k)) in
  (si <> "l" -> si <> "r" -> throws 1)
  /\ (si = "l" \/ si = "r" ->
      (ul <> "u" -> ul <> "l" -> throws 2)
      /\ (ul = "u" \/ ul = "l" ->
          (m < 0 -> throws 3)
          /\ (0 <= m -> n < 0 -> throws 4)
          /\ (0 <= m -> 0 <= n ->
              (lda < Z.max 1 nrowA -> throws 7)
              /\ (Z.max 1 nrowA <= lda ->
                  (ldb < Z.max 1 m -> throws 9)
                  /\ (Z.max 1 m <= ldb ->
                      (ldc < Z.max 1 m -> throws 12)
                      /\ (Z.max 1 m <= ldc -> res.2 = Returned)))))).
Proof.
  cbv zeta. unfold Ssymm.ssymm, Ssymm.info.
  split.
  { intros H1 H2.
    destruct (String.eqb_spec (lowerChar side) "l"); [contradiction |].
    destruct (String.eqb_spec (lowerChar side) "r"); [contradiction |].
    reflexivity. }
  intros Hs.
  replace (negb (String.eqb (lowerChar side) "l") && negb (String.eqb (lowerChar side) "r"))%bool
    with false by (destruct Hs as [-> | ->]; reflexivity).
  split.
  { intros H1 H2.
    destruct (String.eqb_spec (lowerChar uplo) "u"); [contradiction |].
    destruct (String.eqb_spec (lowerChar uplo) "l"); [contradiction |].
    reflexivity. }
  intros Hu.
  replace (negb (String.eqb (lowerChar uplo) "u") && negb (String.eqb (lowerChar uplo) "l"))%bool
    with false by (destruct Hu as [-> | ->]; reflexivity).
  split.
  { intros Hm. destruct (Z.ltb_spec m 0); [reflexivity | lia]. }
  split.
  { intros Hm Hn. destruct (Z.ltb_spec m 0); [lia |].
    destruct (Z.ltb_spec n 0); [reflexivity | lia]. }
  intros Hm Hn.
  destruct (Z.ltb_spec m 0); [lia |]. destruct (Z.ltb_spec n 0); [lia |].
  split.
  { intros Ha.
    destruct (Z.ltb_spec lda
                (Z.max 1 (if String.eqb (lowerChar side) "l" then m else n)));
      [reflexivity | lia]. }
  intros Ha.
  destruct (Z.ltb_spec lda
              (Z.max 1 (if String.eqb (lowerChar side) "l" then m else n))); [lia |].
  split.
  { intros Hb. destruct (Z.ltb_spec ldb (Z.max 1 m)); [reflexivity | lia]. }
  intros Hb. destruct (Z.ltb_spec ldb (Z.max 1 m)); [lia |].
  split.
  { intros Hc. destruct (Z.ltb_spec ldc (Z.max 1 m)); [reflexivity | lia]. }
  intros Hc. destruct (Z.ltb_spec ldc (Z.max 1 m)); [lia |].
  cbn [Z.eqb negb].
  repeat match goal with |- context [if ?t then _ else _] => destruct t end;
    reflexivity.
Qed.

(** Whenever [csymm] throws, the [c] it ends with is the [c] it was
    given, and the error is a missing imaginary buffer or a wrong
    argument numbered 1, 2, 3, 4, 7, 9 or 12. *)
Theorem csymm_throw_keeps_c fuel side uplo m n alpha a lda b ldb beta c ldc c' e :
  Csymm.csymm fuel side uplo m n alpha a lda b ldb beta c ldc = Some (c', Thrown e) ->
  c' = c
  /\ (e = errMissingIm "a.i" \/ e = errMissingIm "b.i" \/ e = errMissingIm "c.i"
      \/ exists k, e = errWrongArg "csymm" k
                   /\ (k = 1 \/ k = 2 \/ k = 3 \/ k = 4 \/ k = 7 \/ k = 9 \/ k = 12)).
Proof.
  unfold Csymm.csymm.
  destruct (i a) as [a_i |]; [| intros [= <- <-]; auto].
  destruct (i b) as [b_i |]; [| intros [= <- <-]; auto].
  destruct (i c) as [c_i |]; [| intros [= <- <-]; auto 6].
  destruct (Z.eqb_spec (Csymm.info (lowerChar side) (lowerChar uplo) m n lda ldb ldc) 0)
    as [E | E]; cbn [negb].
  - repeat match goal with
           | |- context [if ?t then _ else _] => destruct t
           | |- context [match ?t with Some _ => _ | None => _ end] => destruct t
           end; intros [=].
  - intros [= <- <-]. split; [reflexivity |]. do 3 right.
    eexists. split; [reflexivity |]. revert E. unfold Csymm.info.
    repeat match goal with |- context [if ?t then _ else _] => destruct t end;
      intros E; auto 8; contradiction E; reflexivity.
Qed.

Lemma csymm_throw_keeps_c_witness :
  cx_c = cx_c
  /\ (errWrongArg "csymm" 2 = errMissingIm "a.i" \/ errWrongArg "csymm" 2 = errMissingIm "b.i"
      \/ errWrongArg "csymm" 2 = errMissingIm "c.i"
      \/ exists k, errWrongArg "csymm" 2 = errWrongArg "csymm" k
                   /\ (k = 1 \/ k = 2 \/ k = 3 \/ k = 4 \/ k = 7 \/ k = 9 \/ k = 12)).
Proof.
  apply (csymm_throw_keeps_c 0 "l" "u" 1 1 (mkComplex 1 0) cx_a 1 cx_b 1 (mkComplex 0 0)
           cx_c 1 cx_c (errWrongArg "csymm" 2)).
  reflexivity.
Defined.

(** Only one of [csymm]'s branches returns from the engine.  A call with
    [m >= 1], [n >= 1] and a nonzero [alpha] that returns was not on the
    left side and did not have the triangle selector 'u': its final [c]
    is what the right-side loops compute with [upper] false. *)
Theorem csymm_returns_from_right_lower_only
    fuel side uplo m n alpha a lda b ldb beta c ldc c' :
  Csymm.csymm fuel side uplo m n alpha a lda b ldb beta c ldc = Some (c', Returned) ->
  1 <= m -> 1 <= n ->
  (feq (re alpha) 0 && feq (im alpha) 0)%bool = false ->
  lowerChar side <> "l" /\ lowerChar uplo <> "u"
  /\ exists a_i b_i c_i,
       i a = Some a_i /\ i b = Some b_i /\ i c = Some c_i
       /\ c' = Csymm.with_ri c
                 (Csymm.right m n alpha a a_i b b_i beta
                    (feq (re beta) 0 && feq (im beta) 0)%bool c false (r c, c_i)).
Proof.
  unfold Csymm.csymm. intros Hcall Hm Hn Halpha.
  destruct (i a) as [a_i |]; [| discriminate Hcall].
  destruct (i b) as [b_i |]; [| discriminate Hcall].
  destruct (i c) as [c_i |]; [| discriminate Hcall].
  destruct (Z.eqb_spec (Csymm.info (lowerChar side) (lowerChar uplo) m n lda ldb ldc) 0)
    as [E | E]; cbn [negb] in Hcall; [| discriminate Hcall].
  assert (Hu : lowerChar uplo <> "u").
  { intros Hu. revert E. unfold Csymm.info. rewrite Hu.
    destruct (includes "lr" (lowerChar side)); cbn; discriminate. }
  rewrite Halpha in Hcall.
  destruct (Z.eqb_spec m 0); [lia |]. destruct (Z.eqb_spec n 0); [lia |].
  cbn [andb orb] in Hcall.
  destruct (String.eqb_spec (lowerChar uplo) "u") as [| _]; [contradiction |].
  destruct (String.eqb_spec (lowerChar side) "l") as [Hs | Hs].
  - rewrite csymm_left_lower_diverges in Hcall by lia. discriminate Hcall.
  - injection Hcall as <-. repeat split; try assumption.
    exists a_i, b_i, c_i. repeat split.
Qed.

Lemma csymm_returns_from_right_lower_only_witness :
  "r" <> "l" /\ "x" <> "u"
  /\ exists a_i b_i c_i,
       i cx_a = Some a_i /\ i cx_b = Some b_i /\ i cx_c = Some c_i
       /\ mkMatrix [0; 3]%float (Some [0; 7]%float) 1
          = Csymm.with_ri cx_c
              (Csymm.right 1 1 (mkComplex 1 0) cx_a a_i cx_b b_i (mkComplex 0 0)
                 (feq 0 0 && feq 0 0)%bool cx_c false (r cx_c, c_i)).
Proof.
  apply (csymm_returns_from_right_lower_only 0 "r" "x" 1 1 (mkComplex 1 0) cx_a 1 cx_b 1
           (mkComplex 0 0) cx_c 1 (mkMatrix [0; 3]%float (Some [0; 7]%float) 1));
    [reflexivity | lia | lia | reflexivity].
Defined.

(** ** [ssymm]: the calls that do nothing *)

(** A call of [ssymm] that passes the tests with [m = 0] or [n = 0]
    returns with [c] as it was, whatever [alpha] and [beta] are. *)
Theorem ssymm_empty_dimension_noop side uplo m n alpha a lda b ldb beta c ldc :
  Ssymm.info (lowerChar side) (lowerChar uplo) m n lda ldb ldc = 0 ->
  m = 0 \/ n = 0 ->
  Ssymm.ssymm side uplo m n alpha a lda b ldb beta c ldc = (c, Returned).
Proof.
  intros E Hmn. unfold Ssymm.ssymm. rewrite E. cbn [Z.eqb negb].
  destruct Hmn as [-> | ->]; cbn [Z.eqb orb]; rewrite ?orb_true_r; reflexivity.
Qed.

Lemma ssymm_empty_dimension_noop_witness :
  Ssymm.ssymm "r" "u" 0 2 1 (sym_upper 0) 2 identity2 1 1 (view3 0 1 2 0 3 4 0) 1
  = (view3 0 1 2 0 3 4 0, Returned).
Proof.
  apply (ssymm_empty_dimension_noop "r" "u" 0 2 1 (sym_upper 0) 2 identity2 1 1
           (view3 0 1 2 0 3 4 0) 1); [reflexivity | left; reflexivity].
Defined.

Lemma ssymm_alpha0_beta1_noop_witness :
  Ssymm.ssymm "L" "u" 2 2 0 (sym_upper 0) 2 identity2 2 1 (view3 0 1 2 0 3 4 0) 3
  = (view3 0 1 2 0 3 4 0, Returned).
Proof.
  apply (ssymm_alpha0_beta1_noop "L" "u" 2 2 0 (sym_upper 0) 2 identity2 2 1
           (view3 0 1 2 0 3 4 0) 3); reflexivity.
Defined.

(** ** More on the counting loops *)

Lemma iter_up_app {S : Type} (f : Z -> S -> S) :
  forall (cnt1 cnt2 : nat) (k : Z) (st : S),
    iter_up (cnt1 + cnt2) k f st
    = iter_up cnt2 (k + Z.of_nat cnt1) f (iter_up cnt1 k f st).
Proof.
  induction cnt1 as [| cnt1 IH]; intros cnt2 k st.
  - cbn [iter_up Nat.add]. replace (k + Z.of_nat 0) with k by lia. reflexivity.
  - cbn [iter_up Nat.add]. rewrite IH. f_equal. lia.
Qed.

(** A loop over lo..hi is the loop over lo..k followed by the loop over
    k+1..hi. *)
Lemma for_up_split {S : Type} (lo k hi : Z) (f : Z -> S -> S) (st : S) :
  lo <= k + 1 -> k <= hi ->
  for_up lo hi f st = for_up (k + 1) hi f (for_up lo k f st).
Proof.
  intros Hlo Hhi. unfold for_up.
  replace (Z.to_nat (hi - lo + 1))
    with (Z.to_nat (k - lo + 1) + Z.to_nat (hi - (k + 1) + 1))%nat by lia.
  rewrite iter_up_app. f_equal. lia.
Qed.

(** A loop whose body changes nothing changes nothing. *)
Lemma for_up_id {S : Type} (lo hi : Z) (f : Z -> S -> S) (st : S) :
  (forall k st', lo <= k <= hi -> f k st' = st') -> for_up lo hi f st = st.
Proof.
  intros Hid. destruct (Z_lt_dec hi lo) as [Hlt | Hge].
  - apply for_up_empty. exact Hlt.
  - apply (for_up_ind (fun _ st' => st' = st) lo hi); [lia | reflexivity |].
    intros k st' Hk ->. apply Hid. exact Hk.
Qed.

(** A loop on a pair whose body works on the two components apart is the
    pair of the two loops. *)
Lemma for_up_pair {A B : Type} (lo hi : Z) (f : Z -> A -> A) (g : Z -> B -> B) (x : A) (y : B) :
  for_up lo hi (fun k '(x, y) => (f k x, g k y)) (x, y)
  = (for_up lo hi f x, for_up lo hi g y).
Proof.
  unfold for_up. generalize (Z.to_nat (hi - lo + 1)) as cnt. revert x y.
  generalize lo as k. intros k x y cnt. revert k x y.
  induction cnt as [| cnt IH]; intros k x y; cbn [iter_up]; [reflexivity | apply IH].
Qed.

Lemma iter_down_ext {S : Type} (f g : Z -> S -> S) :
  forall (cnt : nat) (k : Z) (st : S),
    (forall k' st', k - Z.of_nat cnt < k' <= k -> f k' st' = g k' st') ->
    iter_down cnt k f st = iter_down cnt k g st.
Proof.
  induction cnt as [| cnt IH]; intros k st Hfg; cbn [iter_down].
  - reflexivity.
  - rewrite (Hfg k st) by lia. apply IH. intros k' st' Hk'. apply Hfg. lia.
Qed.

Lemma for_down_ext {S : Type} (hi lo : Z) (f g : Z -> S -> S) (st : S) :
  (forall k st', lo <= k <= hi -> f k st' = g k st') ->
  for_down hi lo f st = for_down hi lo g st.
Proof.
  intros Hfg. unfold for_down. apply iter_down_ext.
  intros k' st' Hk'. apply Hfg. lia.
Qed.

Lemma for_down_empty {S : Type} (hi lo : Z) (f : Z -> S -> S) (st : S) :
  hi < lo -> for_down hi lo f st = st.
Proof.
  intros Hlt. unfold for_down. replace (Z.to_nat (hi - lo + 1)) with O by lia.
  reflexivity.
Qed.

Lemma iter_down_app {S : Type} (f : Z -> S -> S) :
  forall (cnt1 cnt2 : nat) (k : Z) (st : S),
    iter_down (cnt1 + cnt2) k f st
    = iter_down cnt2 (k - Z.of_nat cnt1) f (iter_down cnt1 k f st).
Proof.
  induction cnt1 as [| cnt1 IH]; intros cnt2 k st.
  - cbn [iter_down Nat.add]. replace (k - Z.of_nat 0) with k by lia. reflexivity.
  - cbn [iter_down Nat.add]. rewrite IH. f_equal. lia.
Qed.

(** A loop from hi down to lo is the loop down to k followed by the loop
    from k-1 down to lo. *)
Lemma for_down_split {S : Type} (hi k lo : Z) (f : Z -> S -> S) (st : S) :
  k <= hi + 1 -> lo <= k ->
  for_down hi lo f st = for_down (k - 1) lo f (for_down hi k f st).
Proof.
  intros Hhi Hlo. unfold for_down.
  replace (Z.to_nat (hi - lo + 1))
    with (Z.to_nat (hi - k + 1) + Z.to_nat (k - 1 - lo + 1))%nat by lia.
  rewrite iter_down_app. f_equal. lia.
Qed.

Lemma for_down_one {S : Type} (k : Z) (f : Z -> S -> S) (st : S) :
  for_down k k f st = f k st.
Proof.
  unfold for_down. replace (Z.to_nat (k - k + 1)) with 1%nat by lia. reflexivity.
Qed.

Lemma for_down_id {S : Type} (hi lo : Z) (f : Z -> S -> S) (st : S) :
  (forall k st', lo <= k <= hi -> f k st' = st') -> for_down hi lo f st = st.
Proof.
  intros Hid. destruct (Z_lt_dec hi lo) as [Hlt | Hge].
  - apply for_down_empty. exact Hlt.
  - apply (for_down_ind (fun _ st' => st' = st) hi lo); [lia | reflexivity |].
    intros k st' Hk ->. apply Hid. exact Hk.
Qed.

(** ** Updates of one column *)

Lemma column_update_id base m buf : column_update base m (fun _ v => v) buf buf.
Proof. split; [reflexivity | split]; reflexivity. Qed.

Lemma column_update_ext base m (g g' : Z -> float -> float) buf buf' :
  (forall row v, 1 <= row <= m -> g row v = g' row v) ->
  column_update base m g buf buf' -> column_update base m g' buf buf'.
Proof.
  intros Hgg (Hlen & Hin & Hout). split; [exact Hlen | split]; [| exact Hout].
  intros row Hrow Hinb. rewrite Hin by assumption. apply Hgg. exact Hrow.
Qed.

Lemma column_update_comp base m (g1 g2 : Z -> float -> float) buf buf1 buf2 :
  column_update base m g1 buf buf1 ->
  column_update base m g2 buf1 buf2 ->
  column_update base m (fun row v => g2 row (g1 row v)) buf buf2.
Proof.
  intros (Hlen1 & Hin1 & Hout1) (Hlen2 & Hin2 & Hout2).
  split; [congruence | split].
  - intros row Hrow Hinb. rewrite Hin2, Hin1; try assumption; [reflexivity |].
    unfold inb in *. rewrite Hlen1. exact Hinb.
  - intros p Hp. rewrite Hout2, Hout1 by assumption. reflexivity.
Qed.

(** A loop of column updates is a column update: each row goes through
    the updates of the iterations in their order. *)
Lemma column_update_for_up base m (lo hi : Z) (g : Z -> Z -> float -> float)
    (F : Z -> fpArray -> fpArray) buf :
  lo <= hi + 1 ->
  (forall k buf0, lo <= k <= hi -> column_update base m (g k) buf0 (F k buf0)) ->
  column_update base m (fun row v => for_up lo hi (fun k v => g k row v) v)
    buf (for_up lo hi F buf).
Proof.
  intros Hle HF.
  pose proof (for_up_ind (fun k' buf' =>
                column_update base m
                  (fun row v => for_up lo (k' - 1) (fun k v => g k row v) v) buf buf')
                lo hi F buf Hle) as H.
  cbv beta in H. replace (hi + 1 - 1) with hi in H by lia. apply H; clear H.
  - eapply column_update_ext; [| apply column_update_id].
    intros row v _. cbv beta. rewrite for_up_empty by lia. reflexivity.
  - intros k buf' Hk Hbuf'.
    eapply column_update_ext; [| eapply column_update_comp; [exact Hbuf' | apply HF, Hk]].
    intros row v _. cbv beta. rewrite (for_up_snoc lo (k + 1 - 1)) by lia.
    replace (k + 1 - 1 - 1) with (k - 1) by lia. replace (k + 1 - 1) with k by lia.
    reflexivity.
Qed.

Lemma iter_down_snoc {S : Type} (f : Z -> S -> S) :
  forall (cnt : nat) (k : Z) (st : S),
    iter_down (Datatypes.S cnt) k f st = f (k - Z.of_nat cnt) (iter_down cnt k f st).
Proof.
  intros cnt k st. replace (Datatypes.S cnt) with (cnt + 1)%nat by lia.
  rewrite iter_down_app. reflexivity.
Qed.

Lemma for_down_snoc {S : Type} (hi lo : Z) (f : Z -> S -> S) (st : S) :
  lo <= hi -> for_down hi lo f st = f lo (for_down hi (lo + 1) f st).
Proof.
  intros Hle. unfold for_down.
  replace (Z.to_nat (hi - lo + 1)) with (Datatypes.S (Z.to_nat (hi - (lo + 1) + 1))) by lia.
  rewrite iter_down_snoc. f_equal. lia.
Qed.

Lemma column_update_for_down base m (hi lo : Z) (g : Z -> Z -> float -> float)
    (F : Z -> fpArray -> fpArray) buf :
  lo <= hi + 1 ->
  (forall k buf0, lo <= k <= hi -> column_update base m (g k) buf0 (F k buf0)) ->
  column_update base m (fun row v => for_down hi lo (fun k v => g k row v) v)
    buf (for_down hi lo F buf).
Proof.
  intros Hle HF.
  pose proof (for_down_ind (fun k' buf' =>
                column_update base m
                  (fun row v => for_down hi (k' + 1) (fun k v => g k row v) v) buf buf')
                hi lo F buf Hle) as H.
  cbv beta in H. replace (lo - 1 + 1) with lo in H by lia. apply H; clear H.
  - eapply column_update_ext; [| apply column_update_id].
    intros row v _. cbv beta. rewrite for_down_empty by lia. reflexivity.
  - intros k buf' Hk Hbuf'.
    eapply column_update_ext; [| eapply column_update_comp; [exact Hbuf' | apply HF, Hk]].
    intros row v _. cbv beta. rewrite (for_down_snoc hi (k - 1 + 1)) by lia.
    replace (k - 1 + 1 + 1) with (k + 1) by lia. replace (k - 1 + 1) with k by lia.
    reflexivity.
Qed.

(** The loop that stores into the rows lo..hi of a column is an update
    of those rows. *)
Lemma column_update_rows base m (lo hi : Z) (g : Z -> float -> float) buf :
  1 <= lo -> hi <= m -> lo <= hi + 1 ->
  column_update base m
    (fun row v => if ((lo <=? row) && (row <=? hi))%bool then g row v else v)
    buf (for_up lo hi (fun k buf => wr buf (base + k) (g k (rd buf (base + k)))) buf).
Proof.
  intros Hlo Hhi Hle.
  destruct (for_up_pointwise base lo hi g buf Hle) as (Hlen & Hin & Hout).
  split; [exact Hlen | split].
  - intros row Hrow Hinb.
    destruct (Z.leb_spec lo row); destruct (Z.leb_spec row hi); cbn [andb];
      [apply Hin; [lia | exact Hinb] | | |]; apply Hout; lia.
  - intros p Hp. apply Hout. lia.
Qed.

(** One store into row [row0] of a column. *)
Lemma column_update_wr base m (row0 : Z) (h : float -> float) buf :
  1 <= row0 <= m ->
  column_update base m (fun row v => if row =? row0 then h v else v)
    buf (wr buf (base + row0) (h (rd buf (base + row0)))).
Proof.
  intros Hrow0. split; [apply length_wr | split].
  - intros row Hrow Hinb. destruct (Z.eqb_spec row row0) as [-> | Hne].
    + apply rd_wr_same. exact Hinb.
    + apply rd_wr_other. lia.
  - intros p Hp. apply rd_wr_other. lia.
Qed.

(** Columns one after the other.  When the body for column [j] updates
    only the rows 1..m of column [j] of [c], the loop over the columns
    leaves alone whatever is outside the active region; and when the
    leading dimension of [c] is at least [m], every element of the active
    region gets the update of its own column and row. *)
Lemma columns_update (c : Matrix) (m n : Z) (h : Z -> Z -> float -> float)
    (F : Z -> fpArray -> fpArray) buf :
  0 <= n ->
  (forall j buf0, 1 <= j <= n -> column_update (colOfEx c j) m (h j) buf0 (F j buf0)) ->
  let buf' := for_up 1 n F buf in
  length buf' = length buf
  /\ (forall p, ~ active c m 1 n p -> rd buf' p = rd buf p)
  /\ (m <= ld c ->
      forall row col, 1 <= row <= m -> 1 <= col <= n -> inb buf (colOfEx c col + row) ->
        rd buf' (colOfEx c col + row) = h col row (rd buf (colOfEx c col + row))).
Proof.
  intros Hn HF. cbv zeta.
  pose proof (for_up_ind (fun k buf' =>
    length buf' = length buf
    /\ (forall p, ~ active c m 1 (k - 1) p -> rd buf' p = rd buf p)
    /\ (m <= ld c ->
        forall row col, 1 <= row <= m -> 1 <= col <= k - 1 ->
          inb buf (colOfEx c col + row) ->
          rd buf' (colOfEx c col + row) = h col row (rd buf (colOfEx c col + row))))
    1 n F buf) as H.
  cbv beta in H. replace (n + 1 - 1) with n in H by lia. apply H; clear H; [lia | |].
  - split; [reflexivity | split]; [reflexivity |]. intros; lia.
  - intros k buf' Hk (Hlen & Hout & Hin).
    destruct (HF k buf' Hk) as (Hlen' & Hin' & Hout').
    replace (k + 1 - 1) with k by lia.
    split; [congruence | split].
    + intros p Hp. rewrite Hout'.
      * apply Hout. intros Hact. apply Hp. apply active_snoc; [lia | left; exact Hact].
      * intros Hcol. apply Hp. apply active_snoc; [lia | right].
        apply active_column. exact Hcol.
    + intros Hld row col Hrow Hcol Hinb.
      destruct (Z.eq_dec col k) as [-> | Hne].
      * rewrite Hin'; [| exact Hrow | unfold inb in *; rewrite Hlen; exact Hinb].
        rewrite Hout; [reflexivity |].
        intros Hact. apply (active_disjoint c m k (colOfEx c k + row) Hld Hact).
        exists k, row. lia.
      * rewrite Hout'; [apply Hin; try assumption; lia |].
        intros Hcol'.
        apply (active_disjoint c m k (colOfEx c col + row) Hld).
        -- exists col, row. lia.
        -- apply active_column. exact Hcol'.
Qed.

(** ** [ssymm] on the right side, element by element *)

Section RightSide.
Variables (m n : Z) (alpha : float) (a b : Matrix) (beta : float) (c : Matrix).
Variable ul : string.
Hypothesis m_nonneg : 0 <= m.

Lemma ssymm_right_axpy_update coorCJ coorBK temp1 buf :
  column_update coorCJ m (fun row v => (v + temp1 * rd (r b) (coorBK + row))%float)
    buf (Ssymm.right_axpy m b coorCJ coorBK temp1 buf).
Proof.
  unfold Ssymm.right_axpy.
  eapply column_update_ext;
    [| apply (column_update_rows coorCJ m 1 m
                (fun row v => (v + temp1 * rd (r b) (coorBK + row))%float)); lia].
  intros row v Hrow. cbv beta.
  destruct (Z.leb_spec 1 row); [| lia]. destruct (Z.leb_spec row m); [| lia].
  reflexivity.
Qed.

Lemma ssymm_right_seed_update j buf :
  column_update (colOfEx c j) m
    (fun row v =>
       if feq beta 0
       then (alpha * rd (r a) (colOfEx a j + j) * rd (r b) (colOfEx b j + row))%float
       else (beta * v
             + alpha * rd (r a) (colOfEx a j + j) * rd (r b) (colOfEx b j + row))%float)
    buf (Ssymm.right_seed m alpha a b beta c j buf).
Proof.
  unfold Ssymm.right_seed. destruct (feq beta 0).
  - eapply column_update_ext;
      [| apply (column_update_rows (colOfEx c j) m 1 m
                  (fun row _ => (alpha * rd (r a) (colOfEx a j + j)
                                 * rd (r b) (colOfEx b j + row))%float)); lia].
    intros row v Hrow. cbv beta.
    destruct (Z.leb_spec 1 row); [| lia]. destruct (Z.leb_spec row m); [| lia].
    reflexivity.
  - eapply column_update_ext;
      [| apply (column_update_rows (colOfEx c j) m 1 m
                  (fun row v => (beta * v
                                 + alpha * rd (r a) (colOfEx a j + j)
                                   * rd (r b) (colOfEx b j + row))%float)); lia].
    intros row v Hrow. cbv beta.
    destruct (Z.leb_spec 1 row); [| lia]. destruct (Z.leb_spec row m); [| lia].
    reflexivity.
Qed.

(** What the three loops of column [j] do to the column. *)
Lemma ssymm_right_column_update j buf :
  1 <= j <= n ->
  column_update (colOfEx c j) m (fun row v => right_element n alpha a b beta ul row j v)
    buf (Ssymm.right_offdiag m n alpha a b c ul j (Ssymm.right_seed m alpha a b beta c j buf)).
Proof.
  intros Hj. unfold Ssymm.right_offdiag, right_element. cbv zeta.
  eapply column_update_ext;
    [| eapply column_update_comp;
       [eapply column_update_comp; [apply ssymm_right_seed_update |] |]].
  2: { apply (column_update_for_up (colOfEx c j) m 1 (j - 1)
                (fun k row v =>
                   (v + alpha * (if String.eqb ul "u" then rd (r a) (colOfEx a j + k)
                                 else rd (r a) (colOfEx a k + j))
                        * rd (r b) (colOfEx b k + row))%float)); [lia |].
       intros k buf0 Hk. apply ssymm_right_axpy_update. }
  2: { apply (column_update_for_up (colOfEx c j) m (j + 1) n
                (fun k row v =>
                   (v + alpha * (if String.eqb ul "u" then rd (r a) (colOfEx a k + j)
                                 else rd (r a) (colOfEx a j + k))
                        * rd (r b) (colOfEx b k + row))%float)); [lia |].
       intros k buf0 Hk. apply ssymm_right_axpy_update. }
  intros row v Hrow. reflexivity.
Qed.
End RightSide.

(** On the right side [ssymm] computes every element of the active
    region from the number that is there on entry and from [a] and [b]
    alone: when [c]'s leading dimension is at least [m], the call returns
    and C(row, col) is [right_element] of its prior value, that is
    (beta*C(row,col) +) alpha*A(col,col)*B(row,col), plus
    alpha*A(k,col)*B(row,k) for k = 1..col-1 and then for k = col+1..n,
    added in that order, with A(k,col) read in the triangle that [uplo]
    names.  The rest of [c] is as it was. *)
Theorem ssymm_right_elements side uplo m n alpha a lda b ldb beta c ldc :
  Ssymm.info (lowerChar side) (lowerChar uplo) m n lda ldb ldc = 0 ->
  lowerChar side = "r" -> 1 <= m -> 1 <= n -> feq alpha 0 = false -> m <= ld c ->
  exists c',
    Ssymm.ssymm side uplo m n alpha a lda b ldb beta c ldc = (c', Returned)
    /\ ld c' = ld c /\ i c' = i c /\ length (r c') = length (r c)
    /\ (forall row col, 1 <= row <= m -> 1 <= col <= n ->
          inb (r c) (colOfEx c col + row) ->
          rd (r c') (colOfEx c col + row)
          = right_element n alpha a b beta (lowerChar uplo) row col
              (rd (r c) (colOfEx c col + row)))
    /\ (forall p, ~ active c m 1 n p -> rd (r c') p = rd (r c) p).
Proof.
  intros E Hs Hm Hn Halpha Hld.
  rewrite (ssymm_right_engine side uplo m n alpha a lda b ldb beta c ldc E Hs Hm Hn Halpha).
  eexists. split; [reflexivity |]. cbn [Ssymm.with_r r i ld].
  destruct (columns_update c m n
              (fun col row v => right_element n alpha a b beta (lowerChar uplo) row col v)
              (fun j cr =>
                 Ssymm.right_offdiag m n alpha a b c (lowerChar uplo) j
                   (Ssymm.right_seed m alpha a b beta c j cr)) (r c))
    as (Hlen & Hout & Hin); [lia | |].
  { intros j buf0 Hj. apply ssymm_right_column_update; lia. }
  split; [reflexivity | split]; [reflexivity | split]; [exact Hlen | split];
    [| exact Hout].
  intros row col Hrow Hcol Hinb. apply Hin; assumption.
Qed.

(** ** [ssymm] on the left side, element by element *)

Section LeftSide.
Variables (m n : Z) (alpha : float) (a b : Matrix) (beta : float).
Hypothesis m_nonneg : 0 <= m.

(** One pass of the loop over i in the upper branch, for the column at
    offset [base] of C and column [j] of B: the rows above [row_i] get
    their term, row [row_i] is stored, the rows below are left alone. *)
Lemma ssymm_left_upper_row_update (base j row_i : Z) buf :
  1 <= row_i <= m ->
  let temp1 := (alpha * rd (r b) (colOfEx b j + row_i))%float in
  let temp2 :=
    for_up 1 (row_i - 1) (fun k t =>
      (t + rd (r b) (colOfEx b j + k) * rd (r a) (colOfEx a row_i + k))%float) 0%float in
  let re := (temp1 * rd (r a) (colOfEx a row_i + row_i) + alpha * temp2)%float in
  column_update base m
    (fun row v =>
       if row <? row_i then (v + temp1 * rd (r a) (colOfEx a row_i + row))%float
       else if row =? row_i
            then (if negb (feq beta 0) then (re + beta * v)%float else re)
            else v)
    buf
    (let '(cr, temp2) :=
       for_up 1 (row_i - 1) (fun k '(cr, temp2) =>
         (wr cr (base + k)
             (rd cr (base + k) + temp1 * rd (r a) (colOfEx a row_i + k))%float,
          (temp2 + rd (r b) (colOfEx b j + k) * rd (r a) (colOfEx a row_i + k))%float))
         (buf, 0%float) in
     let re := (temp1 * rd (r a) (colOfEx a row_i + row_i) + alpha * temp2)%float in
     let re := if negb (feq beta 0) then (re + beta * rd cr (base + row_i))%float else re in
     wr cr (base + row_i) re).
Proof.
  intros Hi. cbv zeta.
  rewrite (for_up_pair 1 (row_i - 1)
             (fun k cr =>
                wr cr (base + k)
                  (rd cr (base + k)
                   + alpha * rd (r b) (colOfEx b j + row_i)
                     * rd (r a) (colOfEx a row_i + k))%float)
             (fun k t =>
                (t + rd (r b) (colOfEx b j + k) * rd (r a) (colOfEx a row_i + k))%float)).
  set (temp2 := for_up 1 (row_i - 1) _ 0%float).
  set (re := (alpha * rd (r b) (colOfEx b j + row_i) * rd (r a) (colOfEx a row_i + row_i)
              + alpha * temp2)%float).
  eapply column_update_ext;
    [| eapply column_update_comp;
       [apply (column_update_rows base m 1 (row_i - 1)
                 (fun row v => (v + alpha * rd (r b) (colOfEx b j + row_i)
                                    * rd (r a) (colOfEx a row_i + row))%float)); lia
       | apply (column_update_wr base m row_i
                  (fun v => if negb (feq beta 0) then (re + beta * v)%float else re));
         exact Hi]].
  intros row v Hrow. cbv beta.
  destruct (Z.ltb_spec row row_i); destruct (Z.eqb_spec row row_i);
    destruct (Z.leb_spec 1 row); destruct (Z.leb_spec row (row_i - 1));
    cbn [andb]; try lia; reflexivity.
Qed.

(** The loop over i of the upper branch, for one column. *)
Lemma ssymm_left_upper_column_update (base j : Z) buf :
  column_update base m (fun row v => left_upper_element m alpha a b beta row j v)
    buf
    (for_up 1 m (fun i cr =>
       let coorAI := colOfEx a i in
       let temp1 := (alpha * rd (r b) (colOfEx b j + i))%float in
       let '(cr, temp2) :=
         for_up 1 (i - 1) (fun k '(cr, temp2) =>
           (wr cr (base + k) (rd cr (base + k) + temp1 * rd (r a) (coorAI + k))%float,
            (temp2 + rd (r b) (colOfEx b j + k) * rd (r a) (coorAI + k))%float))
           (cr, 0%float) in
       let re := (temp1 * rd (r a) (coorAI + i) + alpha * temp2)%float in
       let re := if negb (feq beta 0) then (re + beta * rd cr (base + i))%float else re in
       wr cr (base + i) re) buf).
Proof.
  eapply column_update_ext;
    [| apply (column_update_for_up base m 1 m
                (fun row_i row v =>
                   if row <? row_i
                   then (v + alpha * rd (r b) (colOfEx b j + row_i)
                             * rd (r a) (colOfEx a row_i + row))%float
                   else if row =? row_i
                        then (if negb (feq beta 0)
                              then (alpha * rd (r b) (colOfEx b j + row_i)
                                    * rd (r a) (colOfEx a row_i + row_i)
                                    + alpha
                                      * for_up 1 (row_i - 1) (fun k t =>
                                          (t + rd (r b) (colOfEx b j + k)
                                               * rd (r a) (colOfEx a row_i + k))%float)
                                          0%float
                                    + beta * v)%float
                              else (alpha * rd (r b) (colOfEx b j + row_i)
                                    * rd (r a) (colOfEx a row_i + row_i)
                                    + alpha
                                      * for_up 1 (row_i - 1) (fun k t =>
                                          (t + rd (r b) (colOfEx b j + k)
                                               * rd (r a) (colOfEx a row_i + k))%float)
                                          0%float)%float)
                        else v)); [lia |];
       intros row_i buf0 Hi; apply (ssymm_left_upper_row_update base j row_i buf0 Hi)].
  intros row v Hrow. cbv beta. unfold left_upper_element. cbv zeta.
  rewrite (for_up_split 1 row m) by lia.
  rewrite (for_up_snoc 1 row) by lia.
  rewrite (for_up_id 1 (row - 1)).
  2: { intros k st' Hk. destruct (Z.ltb_spec row k); [lia |].
       destruct (Z.eqb_spec row k); [lia | reflexivity]. }
  destruct (Z.ltb_spec row row); [lia |]. destruct (Z.eqb_spec row row); [| lia].
  apply for_up_ext. intros k st' Hk. destruct (Z.ltb_spec row k); [reflexivity | lia].
Qed.

(** One pass of the loop over i in the lower branch: the rows below
    [row_i] get their term, row [row_i] is stored. *)
Lemma ssymm_left_lower_row_update (base j row_i : Z) buf :
  1 <= row_i <= m ->
  let temp1 := (alpha * rd (r b) (colOfEx b j + row_i))%float in
  let temp2 :=
    for_up (row_i + 1) m (fun k t =>
      (t + rd (r b) (colOfEx b j + k) * rd (r a) (colOfEx a row_i + k))%float) 0%float in
  let re := (temp1 * rd (r a) (colOfEx a row_i + row_i) + alpha * temp2)%float in
  column_update base m
    (fun row v =>
       if row_i <? row then (v + temp1 * rd (r a) (colOfEx a row_i + row))%float
       else if row =? row_i
            then (if negb (feq beta 0) then (re + beta * v)%float else re)
            else v)
    buf
    (let '(cr, temp2) :=
       for_up (row_i + 1) m (fun k '(cr, temp2) =>
         (wr cr (base + k)
             (rd cr (base + k) + temp1 * rd (r a) (colOfEx a row_i + k))%float,
          (temp2 + rd (r b) (colOfEx b j + k) * rd (r a) (colOfEx a row_i + k))%float))
         (buf, 0%float) in
     let re := (temp1 * rd (r a) (colOfEx a row_i + row_i) + alpha * temp2)%float in
     let re := if negb (feq beta 0) then (re + beta * rd cr (base + row_i))%float else re in
     wr cr (base + row_i) re).
Proof.
  intros Hi. cbv zeta.
  rewrite (for_up_pair (row_i + 1) m
             (fun k cr =>
                wr cr (base + k)
                  (rd cr (base + k)
                   + alpha * rd (r b) (colOfEx b j + row_i)
                     * rd (r a) (colOfEx a row_i + k))%float)
             (fun k t =>
                (t + rd (r b) (colOfEx b j + k) * rd (r a) (colOfEx a row_i + k))%float)).
  set (temp2 := for_up (row_i + 1) m _ 0%float).
  set (re := (alpha * rd (r b) (colOfEx b j + row_i) * rd (r a) (colOfEx a row_i + row_i)
              + alpha * temp2)%float).
  eapply column_update_ext;
    [| eapply column_update_comp;
       [apply (column_update_rows base m (row_i + 1) m
                 (fun row v => (v + alpha * rd (r b) (colOfEx b j + row_i)
                                    * rd (r a) (colOfEx a row_i + row))%float)); lia
       | apply (column_update_wr base m row_i
                  (fun v => if negb (feq beta 0) then (re + beta * v)%float else re));
         exact Hi]].
  intros row v Hrow. cbv beta.
  destruct (Z.ltb_spec row_i row); destruct (Z.eqb_spec row row_i);
    destruct (Z.leb_spec (row_i + 1) row); destruct (Z.leb_spec row m);
    cbn [andb]; try lia; reflexivity.
Qed.

(** The loop over i of the lower branch, for one column. *)
Lemma ssymm_left_lower_column_update (base j : Z) buf :
  column_update base m (fun row v => left_lower_element m alpha a b beta row j v)
    buf
    (for_down m 1 (fun i cr =>
       let coorAI := colOfEx a i in
       let temp1 := (alpha * rd (r b) (colOfEx b j + i))%float in
       let '(cr, temp2) :=
         for_up (i + 1) m (fun k '(cr, temp2) =>
           (wr cr (base + k) (rd cr (base + k) + temp1 * rd (r a) (coorAI + k))%float,
            (temp2 + rd (r b) (colOfEx b j + k) * rd (r a) (coorAI + k))%float))
           (cr, 0%float) in
       let re := (temp1 * rd (r a) (coorAI + i) + alpha * temp2)%float in
       let re := if negb (feq beta 0) then (re + beta * rd cr (base + i))%float else re in
       wr cr (base + i) re) buf).
Proof.
  eapply column_update_ext;
    [| apply (column_update_for_down base m m 1
                (fun row_i row v =>
                   if row_i <? row
                   then (v + alpha * rd (r b) (colOfEx b j + row_i)
                             * rd (r a) (colOfEx a row_i + row))%float
                   else if row =? row_i
                        then (if negb (feq beta 0)
                              then (alpha * rd (r b) (colOfEx b j + row_i)
                                    * rd (r a) (colOfEx a row_i + row_i)
                                    + alpha
                                      * for_up (row_i + 1) m (fun k t =>
                                          (t + rd (r b) (colOfEx b j + k)
                                               * rd (r a) (colOfEx a row_i + k))%float)
                                          0%float
                                    + beta * v)%float
                              else (alpha * rd (r b) (colOfEx b j + row_i)
                                    * rd (r a) (colOfEx a row_i + row_i)
                                    + alpha
                                      * for_up (row_i + 1) m (fun k t =>
                                          (t + rd (r b) (colOfEx b j + k)
                                               * rd (r a) (colOfEx a row_i + k))%float)
                                          0%float)%float)
                        else v)); [lia |];
       intros row_i buf0 Hi; apply (ssymm_left_lower_row_update base j row_i buf0 Hi)].
  intros row v Hrow. cbv beta. unfold left_lower_element. cbv zeta.
  rewrite (for_down_split m row 1) by lia.
  rewrite (for_down_snoc m row) by lia.
  rewrite (for_down_id m (row + 1)).
  2: { intros k st' Hk. destruct (Z.ltb_spec k row); [lia |].
       destruct (Z.eqb_spec row k); [lia | reflexivity]. }
  destruct (Z.ltb_spec row row); [lia |]. destruct (Z.eqb_spec row row); [| lia].
  apply for_down_ext. intros k st' Hk. destruct (Z.ltb_spec k row); [reflexivity | lia].
Qed.
End LeftSide.

(** On the left side with the upper triangle [ssymm] computes every
    element of the active region from the number that is there on entry
    and from [a] and [b] alone: when [c]'s leading dimension is at least
    [m], the call returns and C(row, col) is [left_upper_element] of its
    prior value.  Only entries A(k, i) with k <= i are read.  The rest of
    [c] is as it was. *)
Theorem ssymm_left_upper_elements side uplo m n alpha a lda b ldb beta c ldc :
  Ssymm.info (lowerChar side) (lowerChar uplo) m n lda ldb ldc = 0 ->
  lowerChar side = "l" -> lowerChar uplo = "u" ->
  1 <= m -> 1 <= n -> feq alpha 0 = false -> m <= ld c ->
  exists c',
    Ssymm.ssymm side uplo m n alpha a lda b ldb beta c ldc = (c', Returned)
    /\ ld c' = ld c /\ i c' = i c /\ length (r c') = length (r c)
    /\ (forall row col, 1 <= row <= m -> 1 <= col <= n ->
          inb (r c) (colOfEx c col + row) ->
          rd (r c') (colOfEx c col + row)
          = left_upper_element m alpha a b beta row col (rd (r c) (colOfEx c col + row)))
    /\ (forall p, ~ active c m 1 n p -> rd (r c') p = rd (r c) p).
Proof.
  intros E Hs Hu Hm Hn Halpha Hld. unfold Ssymm.ssymm. rewrite E, Hs, Hu, Halpha.
  destruct (Z.eqb_spec m 0); [lia |]. destruct (Z.eqb_spec n 0); [lia |].
  cbn [Z.eqb negb andb orb String.eqb Ascii.eqb Bool.eqb].
  eexists. split; [reflexivity |]. cbn [Ssymm.with_r r i ld]. unfold Ssymm.left_upper.
  match goal with
  | |- context [for_up 1 n ?F (r c)] =>
      destruct (columns_update c m n
                  (fun col row v => left_upper_element m alpha a b beta row col v)
                  F (r c)) as (Hlen & Hout & Hin)
  end; [lia | |].
  { intros j buf0 Hj. apply ssymm_left_upper_column_update. lia. }
  split; [reflexivity | split]; [reflexivity | split]; [exact Hlen | split];
    [| exact Hout].
  intros row col Hrow Hcol Hinb. apply Hin; assumption.
Qed.

(** On the left side with the lower triangle [ssymm] takes the column
    offsets of C from [b].  When [b]'s leading dimension is at least [m],
    the call returns, and the number at the offset that element
    (row, col) has in [b] is, in [c]'s buffer, [left_lower_element] of the
    number that was at that offset on entry; the offsets outside that
    region keep their numbers.  When [b] and [c] have the same leading
    dimension these offsets are those of C(row, col).  Only entries
    A(k, i) with k >= i are read. *)
Theorem ssymm_left_lower_elements side uplo m n alpha a lda b ldb beta c ldc :
  Ssymm.info (lowerChar side) (lowerChar uplo) m n lda ldb ldc = 0 ->
  lowerChar side = "l" -> lowerChar uplo = "l" ->
  1 <= m -> 1 <= n -> feq alpha 0 = false -> m <= ld b ->
  exists c',
    Ssymm.ssymm side uplo m n alpha a lda b ldb beta c ldc = (c', Returned)
    /\ ld c' = ld c /\ i c' = i c /\ length (r c') = length (r c)
    /\ (forall row col, 1 <= row <= m -> 1 <= col <= n ->
          inb (r c) (colOfEx b col + row) ->
          rd (r c') (colOfEx b col + row)
          = left_lower_element m alpha a b beta row col (rd (r c) (colOfEx b col + row)))
    /\ (forall p, ~ active b m 1 n p -> rd (r c') p = rd (r c) p).
Proof.
  intros E Hs Hu Hm Hn Halpha Hld. unfold Ssymm.ssymm. rewrite E, Hs, Hu, Halpha.
  destruct (Z.eqb_spec m 0); [lia |]. destruct (Z.eqb_spec n 0); [lia |].
  cbn [Z.eqb negb andb orb String.eqb Ascii.eqb Bool.eqb].
  eexists. split; [reflexivity |]. cbn [Ssymm.with_r r i ld]. unfold Ssymm.left_lower.
  match goal with
  | |- context [for_up 1 n ?F (r c)] =>
      destruct (columns_update b m n
                  (fun col row v => left_lower_element m alpha a b beta row col v)
                  F (r c)) as (Hlen & Hout & Hin)
  end; [lia | |].
  { intros j buf0 Hj. apply ssymm_left_lower_column_update. lia. }
  split; [reflexivity | split]; [reflexivity | split]; [exact Hlen | split];
    [| exact Hout].
  intros row col Hrow Hcol Hinb. apply Hin; assumption.
Qed.

(** ** The triangle of A that is not referenced *)

Section UpperOnly.
Variables (m n : Z) (alpha : float) (a1 a2 b : Matrix) (beta : float) (c : Matrix).
Variable rows_a : Z.

(** [a1] and [a2] hold the same numbers on and above the diagonal. *)
Hypothesis same_upper :
  forall row col, 1 <= row <= col -> col <= rows_a ->
    rd (r a1) (colOfEx a1 col + row) = rd (r a2) (colOfEx a2 col + row).

Lemma ssymm_left_upper_reads_upper buf :
  m <= rows_a ->
  Ssymm.left_upper m n alpha a1 b beta c buf = Ssymm.left_upper m n alpha a2 b beta c buf.
Proof.
  intros Hrows. unfold Ssymm.left_upper.
  apply for_up_ext. intros j st Hj. cbv zeta.
  apply for_up_ext. intros row_i st' Hi.
  rewrite (same_upper row_i row_i) by lia.
  match goal with
  | |- context [for_up 1 (row_i - 1) ?F1 (st', 0%float)] =>
      match goal with
      | |- _ = ?rhs =>
          match rhs with
          | context [for_up 1 (row_i - 1) ?F2 (st', 0%float)] =>
              rewrite (for_up_ext 1 (row_i - 1) F1 F2)
          end
      end
  end; [reflexivity |].
  intros k [cr temp2] Hk. rewrite (same_upper k row_i) by lia. reflexivity.
Qed.

Lemma ssymm_right_upper_reads_upper buf :
  n <= rows_a ->
  Ssymm.right m n alpha a1 b beta c "u" buf = Ssymm.right m n alpha a2 b beta c "u" buf.
Proof.
  intros Hrows. unfold Ssymm.right.
  apply for_up_ext. intros j st Hj.
  unfold Ssymm.right_seed, Ssymm.right_offdiag. cbv zeta.
  cbn [String.eqb Ascii.eqb Bool.eqb].
  rewrite (same_upper j j) by lia.
  rewrite (for_up_ext 1 (j - 1) _
             (fun k cr => Ssymm.right_axpy m b (colOfEx c j) (colOfEx b k)
                            (alpha * rd (r a2) (colOfEx a2 j + k)) cr)).
  2: { intros k st' Hk. rewrite (same_upper k j) by lia. reflexivity. }
  apply for_up_ext. intros k st' Hk. rewrite (same_upper j k) by lia. reflexivity.
Qed.
End UpperOnly.

Section LowerOnly.
Variables (m n : Z) (alpha : float) (a1 a2 b : Matrix) (beta : float) (c : Matrix).
Variable ul : string.
Variable rows_a : Z.

(** [a1] and [a2] hold the same numbers on and below the diagonal. *)
Hypothesis same_lower :
  forall row col, 1 <= col <= row -> row <= rows_a ->
    rd (r a1) (colOfEx a1 col + row) = rd (r a2) (colOfEx a2 col + row).

Lemma ssymm_left_lower_reads_lower buf :
  m <= rows_a ->
  Ssymm.left_lower m n alpha a1 b beta buf = Ssymm.left_lower m n alpha a2 b beta buf.
Proof.
  intros Hrows. unfold Ssymm.left_lower.
  apply for_up_ext. intros j st Hj. cbv zeta.
  apply for_down_ext. intros row_i st' Hi.
  rewrite (same_lower row_i row_i) by lia.
  match goal with
  | |- context [for_up (row_i + 1) m ?F1 (st', 0%float)] =>
      match goal with
      | |- _ = ?rhs =>
          match rhs with
          | context [for_up (row_i + 1) m ?F2 (st', 0%float)] =>
              rewrite (for_up_ext (row_i + 1) m F1 F2)
          end
      end
  end; [reflexivity |].
  intros k [cr temp2] Hk. rewrite (same_lower k row_i) by lia. reflexivity.
Qed.

Lemma ssymm_right_lower_reads_lower buf :
  n <= rows_a -> String.eqb ul "u" = false ->
  Ssymm.right m n alpha a1 b beta c ul buf = Ssymm.right m n alpha a2 b beta c ul buf.
Proof.
  intros Hrows Hul. unfold Ssymm.right.
  apply for_up_ext. intros j st Hj.
  unfold Ssymm.right_seed, Ssymm.right_offdiag. cbv zeta. rewrite Hul.
  rewrite (same_lower j j) by lia.
  rewrite (for_up_ext 1 (j - 1) _
             (fun k cr => Ssymm.right_axpy m b (colOfEx c j) (colOfEx b k)
                            (alpha * rd (r a2) (colOfEx a2 k + j)) cr)).
  2: { intros k st' Hk. rewrite (same_lower j k) by lia. reflexivity. }
  apply for_up_ext. intros k st' Hk. rewrite (same_lower k j) by lia. reflexivity.
Qed.
End LowerOnly.

(** [ssymm] never reads the triangle of A that the selector does not
    name.  Two calls that differ only in the matrix A end the same way
    with the same final C as soon as the two matrices hold the same
    numbers in the named triangle, diagonal included: on and above the
    diagonal for 'u', on and below it otherwise.  A has [m] rows on the
    left side and [n] on the right. *)
Theorem ssymm_reads_named_triangle_only
    side uplo m n alpha a1 a2 lda b ldb beta c ldc :
  let rows_a := if String.eqb (lowerChar side) "l" then m else n in
  (forall row col, 1 <= row <= rows_a -> 1 <= col <= rows_a ->
     (if String.eqb (lowerChar uplo) "u" then row <= col else col <= row) ->
     rd (r a1) (colOfEx a1 col + row) = rd (r a2) (colOfEx a2 col + row)) ->
  Ssymm.ssymm side uplo m n alpha a1 lda b ldb beta c ldc
  = Ssymm.ssymm side uplo m n alpha a2 lda b ldb beta c ldc.
Proof.
  cbv zeta. unfold Ssymm.ssymm.
  destruct (negb (Ssymm.info (lowerChar side) (lowerChar uplo) m n lda ldb ldc =? 0));
    [reflexivity |].
  destruct ((m =? 0) || (n =? 0) || feq alpha 0 && feq beta 1)%bool; [reflexivity |].
  destruct (feq alpha 0); [reflexivity |].
  destruct (String.eqb (lowerChar side) "l") eqn:Hs;
    destruct (String.eqb (lowerChar uplo) "u") eqn:Hu; intros Hsame.
  - rewrite (ssymm_left_upper_reads_upper m n alpha a1 a2 b beta c m); [reflexivity | | lia].
    intros row col Hrow Hcol. apply Hsame; lia.
  - rewrite (ssymm_left_lower_reads_lower m n alpha a1 a2 b beta m); [reflexivity | | lia].
    intros row col Hrow Hcol. apply Hsame; lia.
  - apply String.eqb_eq in Hu. rewrite Hu.
    rewrite (ssymm_right_upper_reads_upper m n alpha a1 a2 b beta c n); [reflexivity | | lia].
    intros row col Hrow Hcol. apply Hsame; lia.
  - rewrite (ssymm_right_lower_reads_lower m n alpha a1 a2 b beta c (lowerChar uplo) n);
      [reflexivity | | lia | exact Hu].
    intros row col Hrow Hcol. apply Hsame; lia.
Qed.

Lemma ssymm_reads_named_triangle_only_witness :
  Ssymm.ssymm "l" "u" 2 2 1 (sym_upper 7) 2 identity2 2 1 (view3 0 1 2 0 3 4 0) 3
  = Ssymm.ssymm "l" "u" 2 2 1 (sym_upper 9) 2 identity2 2 1 (view3 0 1 2 0 3 4 0) 3.
Proof.
  apply (ssymm_reads_named_triangle_only "l" "u" 2 2 1 (sym_upper 7) (sym_upper 9) 2
           identity2 2 1 (view3 0 1 2 0 3 4 0) 3).
  intros row col Hrow Hcol Htri.
  change (1 <= row <= 2) in Hrow. change (1 <= col <= 2) in Hcol.
  change (row <= col) in Htri.
  assert (Hrc : (row = 1 /\ col = 1) \/ (row = 1 /\ col = 2) \/ (row = 2 /\ col = 2)) by lia.
  destruct Hrc as [[-> ->] | [[-> ->] | [-> ->]]]; reflexivity.
Defined.

(** ** What [ssymm] leaves alone *)

Lemma ssymm_scale_column_update (c : Matrix) (m : Z) (beta : float) (j : Z) buf :
  0 <= m ->
  column_update (colOfEx c j) m (fun _ v => (v * beta)%float) buf
    (for_up 1 m (fun i cr =>
       wr cr (colOfEx c j + i) (rd cr (colOfEx c j + i) * beta)%float) buf).
Proof.
  intros Hm.
  eapply column_update_ext;
    [| apply (column_update_rows (colOfEx c j) m 1 m (fun _ v => (v * beta)%float)); lia].
  intros row v Hrow. cbv beta.
  destruct (Z.leb_spec 1 row); [| lia]. destruct (Z.leb_spec row m); [| lia].
  reflexivity.
Qed.

(** Whatever the arguments are, and however the call ends, [ssymm]
    keeps the leading dimension of [c] and the length of its buffer, and
    it changes no number outside the active region: an offset that is not
    the offset of an element of rows 1..m, columns 1..n of [c] holds
    after the call what it held before.  (The lower branch on the left
    side takes its offsets from [b]: for those calls the offset must also
    be outside that region as [b] lays it out.) *)
Theorem ssymm_writes_only_active_region side uplo m n alpha a lda b ldb beta c ldc :
  let c' := (Ssymm.ssymm side uplo m n alpha a lda b ldb beta c ldc).1 in
  ld c' = ld c /\ length (r c') = length (r c)
  /\ forall p,
       ~ active c m 1 n p ->
       (lowerChar side = "l" -> lowerChar uplo = "l" -> ~ active b m 1 n p) ->
       rd (r c') p = rd (r c) p.
Proof.
  cbv zeta. unfold Ssymm.ssymm.
  destruct (Z.eqb_spec (Ssymm.info (lowerChar side) (lowerChar uplo) m n lda ldb ldc) 0)
    as [E | E]; cbn [negb fst]; [| auto].
  destruct (ssymm_info_0_inv _ _ _ _ _ _ _ E) as (Hs & Hu & Hm & Hn).
  destruct ((m =? 0) || (n =? 0) || feq alpha 0 && feq beta 1)%bool; cbn [fst]; [auto |].
  destruct (feq alpha 0).
  - destruct (feq beta 0); cbn [fst].
    + rewrite setCol_loop by lia. cbn [r ld].
      destruct (fill_columns_spec c m n 0%float (r c)) as (Hlen & _ & Hout); [lia | lia |].
      auto.
    + cbn [Ssymm.with_r r ld]. unfold Ssymm.scale.
      destruct (columns_update c m n (fun _ _ v => (v * beta)%float)
                  (fun j cr =>
                     for_up 1 m (fun i cr =>
                       wr cr (colOfEx c j + i) (rd cr (colOfEx c j + i) * beta)%float) cr)
                  (r c)) as (Hlen & Hout & _); [lia | | auto].
      intros j buf0 Hj. apply ssymm_scale_column_update. lia.
  - destruct Hs as [Hs | Hs]; rewrite Hs; cbn [String.eqb Ascii.eqb Bool.eqb].
    + destruct Hu as [Hu | Hu]; rewrite Hu; cbn [String.eqb Ascii.eqb Bool.eqb fst];
        cbn [Ssymm.with_r r ld].
      * unfold Ssymm.left_upper.
        match goal with
        | |- context [for_up 1 n ?F (r c)] =>
            destruct (columns_update c m n
                        (fun col row v => left_upper_element m alpha a b beta row col v)
                        F (r c)) as (Hlen & Hout & _)
        end; [lia | | auto].
        intros j buf0 Hj. apply ssymm_left_upper_column_update. lia.
      * unfold Ssymm.left_lower.
        match goal with
        | |- context [for_up 1 n ?F (r c)] =>
            destruct (columns_update b m n
                        (fun col row v => left_lower_element m alpha a b beta row col v)
                        F (r c)) as (Hlen & Hout & _)
        end; [lia | | auto].
        intros j buf0 Hj. apply ssymm_left_lower_column_update. lia.
    + cbn [fst Ssymm.with_r r ld]. unfold Ssymm.right.
      destruct (columns_update c m n
                  (fun col row v =>
                     right_element n alpha a b beta (lowerChar uplo) row col v)
                  (fun j cr =>
                     Ssymm.right_offdiag m n alpha a b c (lowerChar uplo) j
                       (Ssymm.right_seed m alpha a b beta c j cr)) (r c))
        as (Hlen & Hout & _); [lia | | auto].
      intros j buf0 Hj. apply ssymm_right_column_update; lia.
Qed.

Lemma ssymm_alpha0_beta0_zero_fill_witness :
  exists c',
    Ssymm.ssymm "l" "u" 2 2 0 (sym_upper 0) 2 identity2 2 0 (view3 9 1 2 9 3 4 9) 3
    = (c', Returned)
    /\ ld c' = 3 /\ length (r c') = 7%nat
    /\ (forall row col, 1 <= row <= 2 -> 1 <= col <= 2 ->
          inb (r (view3 9 1 2 9 3 4 9)) (colOfEx (view3 9 1 2 9 3 4 9) col + row) ->
          rd (r c') (colOfEx (view3 9 1 2 9 3 4 9) col + row) = 0%float)
    /\ (forall p, ~ active (view3 9 1 2 9 3 4 9) 2 1 2 p ->
          rd (r c') p = rd (r (view3 9 1 2 9 3 4 9)) p).
Proof.
  apply (ssymm_alpha0_beta0_zero_fill "l" "u" 2 2 0 (sym_upper 0) 2 identity2 2 0
           (view3 9 1 2 9 3 4 9) 3); try reflexivity; lia.
Defined.

Lemma ssymm_alpha0_scales_witness :
  exists c',
    Ssymm.ssymm "l" "u" 2 2 0 (sym_upper 0) 2 identity2 2 2 (view3 9 1 2 9 3 4 9) 3
    = (c', Returned)
    /\ ld c' = 3 /\ length (r c') = 7%nat
    /\ (forall row col, 1 <= row <= 2 -> 1 <= col <= 2 ->
          inb (r (view3 9 1 2 9 3 4 9)) (colOfEx (view3 9 1 2 9 3 4 9) col + row) ->
          rd (r c') (colOfEx (view3 9 1 2 9 3 4 9) col + row)
          = (rd (r (view3 9 1 2 9 3 4 9)) (colOfEx (view3 9 1 2 9 3 4 9) col + row) * 2)%float)
    /\ (forall p, ~ active (view3 9 1 2 9 3 4 9) 2 1 2 p ->
          rd (r c') p = rd (r (view3 9 1 2 9 3 4 9)) p).
Proof.
  apply (ssymm_alpha0_scales "l" "u" 2 2 0 (sym_upper 0) 2 identity2 2 2
           (view3 9 1 2 9 3 4 9) 3); try reflexivity; cbn [ld view3]; lia.
Defined.

Lemma ssymm_beta0_forgets_c_witness :
  let res1 := Ssymm.ssymm "r" "l" 2 2 1 (sym_lower 0) 2 identity2 2 0
                (view3 9 1 2 9 3 4 9) 3 in
  let res2 := Ssymm.ssymm "r" "l" 2 2 1 (sym_lower 0) 2 identity2 2 0
                (view3 0 5 6 0 7 8 0) 3 in
  res1.2 = Returned /\ res2.2 = Returned
  /\ forall row col, 1 <= row <= 2 -> 1 <= col <= 2 ->
       rd (r res1.1) (colOfEx (view3 9 1 2 9 3 4 9) col + row)
       = rd (r res2.1) (colOfEx (view3 9 1 2 9 3 4 9) col + row).
Proof.
  apply (ssymm_beta0_forgets_c "r" "l" 2 2 1 (sym_lower 0) 2 identity2 2 0
           (view3 9 1 2 9 3 4 9) (view3 0 5 6 0 7 8 0) 3); try reflexivity.
  intros Hs. discriminate Hs.
Defined.

Lemma ssymm_right_elements_witness :
  exists c',
    Ssymm.ssymm "r" "u" 2 2 1 (sym_upper 0) 2 identity2 2 1 (view3 9 1 2 9 3 4 9) 3
    = (c', Returned)
    /\ ld c' = 3 /\ i c' = None /\ length (r c') = 7%nat
    /\ (forall row col, 1 <= row <= 2 -> 1 <= col <= 2 ->
          inb (r (view3 9 1 2 9 3 4 9)) (colOfEx (view3 9 1 2 9 3 4 9) col + row) ->
          rd (r c') (colOfEx (view3 9 1 2 9 3 4 9) col + row)
          = right_element 2 1 (sym_upper 0) identity2 1 "u" row col
              (rd (r (view3 9 1 2 9 3 4 9)) (colOfEx (view3 9 1 2 9 3 4 9) col + row)))
    /\ (forall p, ~ active (view3 9 1 2 9 3 4 9) 2 1 2 p ->
          rd (r c') p = rd (r (view3 9 1 2 9 3 4 9)) p).
Proof.
  apply (ssymm_right_elements "r" "u" 2 2 1 (sym_upper 0) 2 identity2 2 1
           (view3 9 1 2 9 3 4 9) 3); try reflexivity; cbn [ld view3]; lia.
Defined.

Lemma ssymm_left_upper_elements_witness :
  exists c',
    Ssymm.ssymm "l" "u" 2 2 1 (sym_upper 0) 2 identity2 2 1 (view3 9 1 2 9 3 4 9) 3
    = (c', Returned)
    /\ ld c' = 3 /\ i c' = None /\ length (r c') = 7%nat
    /\ (forall row col, 1 <= row <= 2 -> 1 <= col <= 2 ->
          inb (r (view3 9 1 2 9 3 4 9)) (colOfEx (view3 9 1 2 9 3 4 9) col + row) ->
          rd (r c') (colOfEx (view3 9 1 2 9 3 4 9) col + row)
          = left_upper_element 2 1 (sym_upper 0) identity2 1 row col
              (rd (r (view3 9 1 2 9 3 4 9)) (colOfEx (view3 9 1 2 9 3 4 9) col + row)))
    /\ (forall p, ~ active (view3 9 1 2 9 3 4 9) 2 1 2 p ->
          rd (r c') p = rd (r (view3 9 1 2 9 3 4 9)) p).
Proof.
  apply (ssymm_left_upper_elements "l" "u" 2 2 1 (sym_upper 0) 2 identity2 2 1
           (view3 9 1 2 9 3 4 9) 3); try reflexivity; cbn [ld view3]; lia.
Defined.

Lemma ssymm_left_lower_elements_witness :
  exists c',
    Ssymm.ssymm "l" "l" 2 2 1 (sym_lower 0) 2 identity2 2 1 (view3 9 1 2 9 3 4 9) 3
    = (c', Returned)
    /\ ld c' = 3 /\ i c' = None /\ length (r c') = 7%nat
    /\ (forall row col, 1 <= row <= 2 -> 1 <= col <= 2 ->
          inb (r (view3 9 1 2 9 3 4 9)) (colOfEx identity2 col + row) ->
          rd (r c') (colOfEx identity2 col + row)
          = left_lower_element 2 1 (sym_lower 0) identity2 1 row col
              (rd (r (view3 9 1 2 9 3 4 9)) (colOfEx identity2 col + row)))
    /\ (forall p, ~ active identity2 2 1 2 p ->
          rd (r c') p = rd (r (view3 9 1 2 9 3 4 9)) p).
Proof.
  apply (ssymm_left_lower_elements "l" "l" 2 2 1 (sym_lower 0) 2 identity2 2 1
           (view3 9 1 2 9 3 4 9) 3); try reflexivity; cbn [ld identity2]; lia.
Defined.

(** ** What [csymm] leaves alone *)

Lemma frame2_refl W st : frame2 W st st.
Proof. split; [reflexivity | split]; [reflexivity | auto]. Qed.

Lemma frame2_trans W st1 st2 st3 :
  frame2 W st1 st2 -> frame2 W st2 st3 -> frame2 W st1 st3.
Proof.
  intros (Hr1 & Hi1 & H1) (Hr2 & Hi2 & H2).
  split; [congruence | split]; [congruence |].
  intros p Hp. destruct (H1 p Hp), (H2 p Hp). split; congruence.
Qed.

Lemma frame2_wr (W : Z -> Prop) c_r c_i p v w :
  W p -> frame2 W (c_r, c_i) (wr c_r p v, wr c_i p w).
Proof.
  intros Hp. unfold frame2. cbn [fst snd].
  split; [apply length_wr | split]; [apply length_wr |].
  intros q Hq. assert (q <> p) by (intros ->; contradiction).
  rewrite !rd_wr_other by assumption. auto.
Qed.

Lemma iter_up_frame2 W (F : Z -> fpArray * fpArray -> fpArray * fpArray) :
  forall (cnt : nat) (k : Z) st,
    (forall k' st', k <= k' < k + Z.of_nat cnt -> frame2 W st' (F k' st')) ->
    frame2 W st (iter_up cnt k F st).
Proof.
  induction cnt as [| cnt IH]; intros k st HF; cbn [iter_up].
  - apply frame2_refl.
  - apply (frame2_trans W st (F k st)); [apply HF; lia |]. apply IH.
    intros k' st' Hk'. apply HF. lia.
Qed.

Lemma for_up_frame2 W lo hi (F : Z -> fpArray * fpArray -> fpArray * fpArray) st :
  (forall k st', lo <= k <= hi -> frame2 W st' (F k st')) ->
  frame2 W st (for_up lo hi F st).
Proof.
  intros HF. unfold for_up. apply iter_up_frame2.
  intros k' st' Hk'. apply HF. lia.
Qed.

Lemma csymm_info_0_inv si ul m n lda ldb ldc :
  Csymm.info si ul m n lda ldb ldc = 0 ->
  includes "lr" si = true /\ includes "ul" ul = false /\ 0 <= m /\ 0 <= n.
Proof.
  unfold Csymm.info.
  destruct (includes "lr" si); cbn [negb]; [| discriminate].
  destruct (includes "ul" ul); [discriminate |].
  destruct (Z.ltb_spec m 0); [discriminate |].
  destruct (Z.ltb_spec n 0); [discriminate |]. auto.
Qed.

Section CsymmFrame.
Variables (m n : Z) (alpha : Complex).
Variables (a : Matrix) (a_i : fpArray) (b : Matrix) (b_i : fpArray).
Variables (beta : Complex) (betaIsZero : bool).
Variable c : Matrix.
Variable upper : bool.

Lemma csymm_right_seed_frame (W : Z -> Prop) j st :
  (forall row, 1 <= row <= m -> W (colOfEx c j + row)) ->
  frame2 W st (Csymm.right_seed m alpha a a_i b b_i beta betaIsZero c j st).
Proof.
  intros HW. unfold Csymm.right_seed. cbv zeta.
  apply for_up_frame2. intros k [c_r c_i] Hk.
  destruct betaIsZero; cbn [negb]; apply frame2_wr; auto.
Qed.

Lemma csymm_right_axpy_frame (W : Z -> Prop) coorCJ coorBK aRe aIm st :
  (forall row, 1 <= row <= m -> W (coorCJ + row)) ->
  frame2 W st (Csymm.right_axpy m alpha b b_i coorCJ coorBK aRe aIm st).
Proof.
  intros HW. unfold Csymm.right_axpy. cbv zeta.
  apply for_up_frame2. intros k [c_r c_i] Hk. apply frame2_wr; auto.
Qed.

Lemma csymm_right_frame st :
  frame2 (active c m 1 n) st
    (Csymm.right m n alpha a a_i b b_i beta betaIsZero c upper st).
Proof.
  unfold Csymm.right. apply for_up_frame2. intros j st' Hj.
  assert (HW : forall row, 1 <= row <= m -> active c m 1 n (colOfEx c j + row))
    by (intros row Hrow; exists j, row; lia).
  eapply frame2_trans; [apply csymm_right_seed_frame; exact HW |].
  unfold Csymm.right_offdiag. cbv zeta.
  eapply frame2_trans; apply for_up_frame2; intros k st'' Hk;
    apply csymm_right_axpy_frame; exact HW.
Qed.

Lemma csymm_scale_frame st :
  frame2 (active c m 1 n) st (Csymm.scale m n beta c st).
Proof.
  unfold Csymm.scale. apply for_up_frame2. intros j st' Hj. cbv zeta.
  apply for_up_frame2. intros k [c_r c_i] Hk. apply frame2_wr.
  exists j, k. lia.
Qed.
End CsymmFrame.

(** However a call of [csymm] ends, it keeps the leading dimension of
    [c] and the lengths of its two buffers, and it changes no number
    outside the active region: an offset that is not the offset of an
    element of rows 1..m, columns 1..n of [c] holds after the call, in the
    real and in the imaginary buffer, what it held before. *)
Theorem csymm_writes_only_active_region
    fuel side uplo m n alpha a lda b ldb beta c ldc c' o :
  Csymm.csymm fuel side uplo m n alpha a lda b ldb beta c ldc = Some (c', o) ->
  ld c' = ld c /\ length (r c') = length (r c)
  /\ (length <$> i c') = (length <$> i c)
  /\ forall p, ~ active c m 1 n p ->
       rd (r c') p = rd (r c) p
       /\ ((fun buf => rd buf p) <$> i c') = ((fun buf => rd buf p) <$> i c).
Proof.
  unfold Csymm.csymm.
  destruct (i a) as [a_i |]; [| intros [= <- _]; auto].
  destruct (i b) as [b_i |]; [| intros [= <- _]; auto].
  destruct (i c) as [c_i |] eqn:Hci; [| intros [= <- _]; rewrite Hci; auto].
  destruct (Z.eqb_spec (Csymm.info (lowerChar side) (lowerChar uplo) m n lda ldb ldc) 0)
    as [E | E]; cbn [negb]; [| intros [= <- _]; rewrite Hci; auto].
  destruct (csymm_info_0_inv _ _ _ _ _ _ _ E) as (_ & Hul & Hm & Hn).
  destruct (Z.eqb_spec m 0) as [Hm0 | Hm0]; [intros [= <- _]; rewrite Hci; auto |].
  destruct (Z.eqb_spec n 0) as [Hn0 | Hn0]; [intros [= <- _]; rewrite Hci; auto |].
  cbn [orb].
  destruct (feq (re alpha) 0 && feq (im alpha) 0 && (feq (re beta) 1 && feq (im beta) 0))%bool;
    [intros [= <- _]; rewrite Hci; auto |].
  assert (Hpair : forall st',
            frame2 (active c m 1 n) (r c, c_i) st' ->
            ld (Csymm.with_ri c st') = ld c
            /\ length (r (Csymm.with_ri c st')) = length (r c)
            /\ (length <$> i (Csymm.with_ri c st')) = Some (length c_i)
            /\ forall p, ~ active c m 1 n p ->
                 rd (r (Csymm.with_ri c st')) p = rd (r c) p
                 /\ ((fun buf => rd buf p) <$> i (Csymm.with_ri c st')) = Some (rd c_i p)).
  { intros st' (Hr & Hi & Hout). cbn [Csymm.with_ri r i ld fmap option_fmap option_map].
    cbn [fst snd] in Hr, Hi. split; [reflexivity | split]; [exact Hr | split].
    - rewrite Hi. reflexivity.
    - intros p Hp. destruct (Hout p Hp) as [H1 H2]. cbn [fst snd] in H1, H2.
      rewrite H1, H2. auto. }
  destruct (feq (re alpha) 0 && feq (im alpha) 0)%bool.
  - destruct (negb (feq (re beta) 0 && feq (im beta) 0)).
    + intros [= <- _]. rewrite setCol_loop by lia. cbn [r i ld]. rewrite Hci.
      cbn [fmap option_fmap option_map].
      destruct (fill_columns_spec c m n 0%float (r c)) as (Hlen1 & _ & Hout1); [lia | lia |].
      destruct (fill_columns_spec c m n 0%float c_i) as (Hlen2 & _ & Hout2); [lia | lia |].
      split; [reflexivity | split]; [exact Hlen1 | split]; [rewrite Hlen2; reflexivity |].
      intros p Hp. rewrite Hout1, Hout2 by exact Hp. auto.
    + intros [= <- _]. apply Hpair. apply csymm_scale_frame.
  - destruct (String.eqb (lowerChar side) "l").
    + destruct (String.eqb_spec (lowerChar uplo) "u") as [Hu | _].
      * rewrite Hu in Hul. discriminate Hul.
      * rewrite csymm_left_lower_diverges by lia. discriminate.
    + intros [= <- _]. apply Hpair. apply csymm_right_frame.
Qed.

Lemma csymm_writes_only_active_region_witness :
  let c' := mkMatrix [0; 3]%float (Some [0; 7]%float) 1 in
  ld c' = ld cx_c /\ length (r c') = length (r cx_c)
  /\ (length <$> i c') = (length <$> i cx_c)
  /\ forall p, ~ active cx_c 1 1 1 p ->
       rd (r c') p = rd (r cx_c) p
       /\ ((fun buf => rd buf p) <$> i c') = ((fun buf => rd buf p) <$> i cx_c).
Proof.
  apply (csymm_writes_only_active_region 0 "r" "x" 1 1 (mkComplex 1 0) cx_a 1 cx_b 1
           (mkComplex 0 0) cx_c 1 (mkMatrix [0; 3]%float (Some [0; 7]%float) 1) Returned).
  reflexivity.
Defined.
